(** * trace-mapping: the encoded source map ([src/encoded-map.ts])

    A shallow embedding of the VLQ decoder, the per-line normaliser and the
    query functions of [EncodedSourceMapImpl], followed by the properties the
    specification states about them.

    Conventions of the embedding.
    - A JS [number] that holds an integer is a [Z]; a string position and a
      generated line number are [nat].  The accumulators of [decode] are JS
      doubles, exact below 2^53; they are modelled in [Z] without rounding.
    - A JS string is a [string]: its code units are below 256.  The code
      treats every unit from 128 on alike.
    - A [Uint32Array] (and the [Uint8Array] lookup table) is a [list Z]; a
      store into it wraps modulo 2^32 ([ToUint32]) and a store outside its
      bounds is dropped, as for every typed array.
    - The 32-bit operators [|], [&], [<<] and [>>>] are [Z.lor], [Z.land],
      [Z.shiftl] and [Z.shiftr] with the wrap-around written out. *)

From Stdlib Require Import ZArith List Bool Lia String Ascii Arith.
From Stdlib Require Import Sorting.Sorted Sorting.Permutation.
Import ListNotations.

Local Open Scope Z_scope.

(** ** JS integer conversions and typed arrays *)

Definition ToUint32 (z : Z) : Z := z mod 2 ^ 32.

Definition ToInt32 (z : Z) : Z := (z + 2 ^ 31) mod 2 ^ 32 - 2 ^ 31.

(** [a << s] on 32-bit integers: only the low five bits of [s] count. *)
Definition shl32 (a s : Z) : Z := ToInt32 (Z.shiftl a (s mod 32)).

(** [a >>> s]. *)
Definition shru32 (a s : Z) : Z := Z.shiftr (ToUint32 a) (s mod 32).

(** [a | b] on 32-bit integers. *)
Definition or32 (a b : Z) : Z := ToInt32 (Z.lor (ToInt32 a) (ToInt32 b)).

Abbreviation Uint32Array := (list Z) (only parsing).

Definition len {A} (l : list A) : Z := Z.of_nat (List.length l).

(** [a[i]] for an index inside the array.  Outside the array JS answers
    [undefined]; the embedding answers [0] there.  The code reads inside:
    [decode] below [count] after [reserve], the queries at records of a
    known line (see [record_of_line_inside]). *)
Definition aget (a : list Z) (i : Z) : Z :=
  if i <? 0 then 0 else nth (Z.to_nat i) a 0.

(** [a[i] = v] on a typed array: a store outside the bounds does nothing. *)
Definition aset (a : list Z) (i v : Z) : list Z :=
  if (0 <=? i) && (i <? len a)
  then firstn (Z.to_nat i) a ++ v :: skipn (S (Z.to_nat i)) a
  else a.

(** [new Uint32Array(n)]: [n] zeros. *)
Definition new_array (n : Z) : list Z := repeat 0 (Z.to_nat n).

(** [a.slice(lo, hi)] and [a.subarray(lo, hi)] for [0 <= lo]: a copy (or a
    view) of the elements from [lo] up to [hi], clamped to the array. *)
Definition slice (a : list Z) (lo hi : Z) : list Z :=
  firstn (Z.to_nat (hi - lo)) (skipn (Z.to_nat lo) a).

(** [a.set(src, off)]: copy [src] into [a] from offset [off] on.  JS raises
    a [RangeError] when [src] does not fit; [reserve] and [maybeSort] only
    pass sources that fit (see [len_reserve] and [maybeSort_spec]). *)
Fixpoint set_from (a : list Z) (src : list Z) (off : Z) : list Z :=
  match src with
  | [] => a
  | v :: src' => set_from (aset a off v) src' (off + 1)
  end.

(** [s.charCodeAt(pos)]; [None] stands for [NaN] (position outside [s]). *)
Definition charCodeAt (s : string) (pos : nat) : option Z :=
  match String.get pos s with
  | Some c => Some (Z.of_nat (nat_of_ascii c))
  | None => None
  end.

Definition slen (s : string) : nat := String.length s.

(** ** Constants *)

Definition ITEM_LENGTH : Z := 5.

Definition base64 : string :=
  "ABCDEFGHIJKLMNOPQRSTUVWXYZabcdefghijklmnopqrstuvwxyz0123456789+/=".

(** The module-level loop [for (i...) base64Index[base64.charCodeAt(i)] = i]
    over a [Uint8Array(128)]. *)
Fixpoint base64Index_fill (n : nat) (i : nat) (tbl : list Z) : list Z :=
  match n with
  | O => tbl
  | S n' =>
      match charCodeAt base64 i with
      | Some c => base64Index_fill n' (S i) (aset tbl c (Z.of_nat i mod 256))
      | None => tbl
      end
  end.

Definition base64Index : list Z :=
  Eval vm_compute in base64Index_fill (slen base64) 0 (new_array 128).

(** [base64Index[c]] as the bit operators of [decodeInteger] see it: the
    lookup is [undefined] for [c = NaN] and for [c >= 128], and
    [undefined & k] is [0]. *)
Definition base64Index_at (c : option Z) : Z :=
  match c with
  | Some c => if c <? 128 then aget base64Index c else 0
  | None => 0
  end.

(** ** [decodeInteger] *)

(** The [do ... while (integer & 32)] loop.  Every round reads one more
    character, and a read past the end of the string ends the loop, so
    [slen encoded - pos] further rounds always suffice as [fuel] (see
    [decodeInteger_loop_fuel]). *)
Fixpoint decodeInteger_loop (fuel : nat) (encoded : string) (pos : nat)
    (value shift : Z) : Z * nat :=
  let c := charCodeAt encoded pos in
  let pos := S pos in
  let integer := base64Index_at c in
  let value := or32 value (shl32 (Z.land integer 31) shift) in
  let shift := shift + 5 in
  if Z.land integer 32 =? 0 then (value, pos)
  else
    match fuel with
    | O => (value, pos)
    | S fuel' => decodeInteger_loop fuel' encoded pos value shift
    end.

(** The integer [decodeInteger] computes, before it is stored, with the
    position after its last digit. *)
Definition decodeInteger_value (encoded : string) (pos : nat) : Z * nat :=
  let '(value, pos) := decodeInteger_loop (slen encoded - pos) encoded pos 0 0 in
  let shouldNegate := Z.land value 1 in
  let value := shru32 value 1 in
  let value :=
    if shouldNegate =? 0 then value else or32 (- 0x80000000) (- value) in
  (value, pos).

(** [decodeInteger(encoded, pos, state, index)]: stores the integer at
    [state[index]] and returns the new position (here with the array). *)
Definition decodeInteger (encoded : string) (pos : nat) (state : Uint32Array)
    (index : Z) : nat * Uint32Array :=
  let '(value, pos) := decodeInteger_value encoded pos in
  (pos, aset state index (ToUint32 value)).

(** ** [reserve], [hasMoreMappings] *)

Definition reserve (buf : Uint32Array) (pos count : Z) : Uint32Array :=
  if pos + count <? len buf then buf
  else
    let swap := new_array (len buf * 2) in
    set_from swap buf 0.

Definition hasMoreMappings (encoded : string) (pos : nat) : bool :=
  if Nat.eqb pos (slen encoded) then false
  else
    match charCodeAt encoded pos with
    | Some c => negb (c =? 44) && negb (c =? 59)
    | None => true (* NaN !== 44 && NaN !== 59 *)
    end.

(** ** The line normaliser: [isSorted], [sortComparator], [maybeSort] *)

(** The [for] loop of [isSorted], from index [i] on; it runs at most
    [end - i] rounds. *)
Fixpoint isSorted_loop (fuel : nat) (state : Uint32Array) (i end_ : Z) : bool :=
  match fuel with
  | O => true
  | S fuel' =>
      if i <? end_ then
        if aget state i <? aget state (i - ITEM_LENGTH) then false
        else isSorted_loop fuel' state (i + ITEM_LENGTH) end_
      else true
  end.

Definition isSorted (state : Uint32Array) (start end_ : Z) : bool :=
  isSorted_loop (Z.to_nat (end_ - start)) state (start + ITEM_LENGTH) end_.

Definition sortComparator (a b : Uint32Array) : Z := aget a 0 - aget b 0.

(** [Array.prototype.sort] with a comparator is a stable sort; with a
    consistent comparator its result is the one of a stable insertion sort. *)
Section StableSort.
Context {A : Type} (cmp : A -> A -> Z).

(** [x], which stood before the elements of [l], goes before the first
    element that is not smaller than it. *)
Fixpoint insert_sorted (x : A) (l : list A) : list A :=
  match l with
  | [] => [x]
  | y :: l' => if cmp x y <=? 0 then x :: l else y :: insert_sorted x l'
  end.

(** Elements are inserted right to left, each before its equals, so equal
    elements keep their order. *)
Fixpoint array_sort (l : list A) : list A :=
  match l with
  | [] => []
  | x :: l' => insert_sorted x (array_sort l')
  end.
End StableSort.

(** The first loop of [maybeSort]: one [state.slice(start, start + ITEM_LENGTH)]
    is pushed per record of the range; the slice is taken at [start], not at
    the loop index [i]. *)
Fixpoint maybeSort_collect (fuel : nat) (state : Uint32Array) (start i end_ : Z)
    (segments : list Uint32Array) : list Uint32Array :=
  match fuel with
  | O => segments
  | S fuel' =>
      if i <? end_ then
        maybeSort_collect fuel' state start (i + ITEM_LENGTH) end_
          (segments ++ [slice state start (start + ITEM_LENGTH)])
      else segments
  end.

(** The second loop of [maybeSort]: [state.set(segments[i], start + i * ITEM_LENGTH)]. *)
Fixpoint maybeSort_write (state : Uint32Array) (segments : list Uint32Array)
    (start i : Z) : Uint32Array :=
  match segments with
  | [] => state
  | seg :: segments' =>
      maybeSort_write (set_from state seg (start + i * ITEM_LENGTH)) segments'
        start (i + 1)
  end.

Definition maybeSort (state : Uint32Array) (start end_ : Z) : Uint32Array :=
  if isSorted state start end_ then state
  else
    let segments :=
      maybeSort_collect (Z.to_nat (end_ - start)) state start start end_ [] in
    let segments := array_sort sortComparator segments in
    maybeSort_write state segments start 0.

(** ** [decode] *)

(** The local variables of [decode] (with [lines], its output parameter). *)
Record decode_state : Type := mkDecode {
  d_pos : nat;
  d_generatedColumn : Z;
  d_sourcesIndex : Z;
  d_sourceLine : Z;
  d_sourceColumn : Z;
  d_namesIndex : Z;
  d_decoded : Uint32Array;
  d_lastLineStart : Z;
  d_count : Z;
  d_lines : list Z
}.

(** [acc = decoded[index] += acc]: the sum is stored modulo 2^32, the
    accumulator keeps the sum itself. *)
Definition add_assign (decoded : Uint32Array) (index acc : Z) : Uint32Array * Z :=
  let r := aget decoded index + acc in
  (aset decoded index (ToUint32 r), r).

(** The [default] branch of the [switch]: one record. *)
Definition decode_record (encoded : string) (s : decode_state) : decode_state :=
  let count := d_count s in
  let decoded := reserve (d_decoded s) count ITEM_LENGTH in
  let '(pos, decoded) := decodeInteger encoded (d_pos s) decoded count in
  let '(decoded, generatedColumn) := add_assign decoded count (d_generatedColumn s) in
  let count := count + 1 in
  if negb (hasMoreMappings encoded pos) then
    mkDecode pos generatedColumn (d_sourcesIndex s) (d_sourceLine s)
      (d_sourceColumn s) (d_namesIndex s) decoded (d_lastLineStart s)
      (count + 4) (d_lines s)
  else
    let '(pos, decoded) := decodeInteger encoded pos decoded count in
    let '(decoded, sourcesIndex) := add_assign decoded count (d_sourcesIndex s) in
    let count := count + 1 in
    let '(pos, decoded) := decodeInteger encoded pos decoded count in
    let '(decoded, sourceLine) := add_assign decoded count (d_sourceLine s) in
    let count := count + 1 in
    let '(pos, decoded) := decodeInteger encoded pos decoded count in
    let '(decoded, sourceColumn) := add_assign decoded count (d_sourceColumn s) in
    let count := count + 1 in
    if negb (hasMoreMappings encoded pos) then
      mkDecode pos generatedColumn sourcesIndex sourceLine sourceColumn
        (d_namesIndex s) decoded (d_lastLineStart s) (count + 1) (d_lines s)
    else
      let '(pos, decoded) := decodeInteger encoded pos decoded count in
      let '(decoded, namesIndex) := add_assign decoded count (d_namesIndex s) in
      let count := count + 1 in
      mkDecode pos generatedColumn sourcesIndex sourceLine sourceColumn
        namesIndex decoded (d_lastLineStart s) count (d_lines s).

(** One round of the [for] loop: the [switch] on the character at [pos]. *)
Definition decode_step (encoded : string) (s : decode_state) : decode_state :=
  match charCodeAt encoded (d_pos s) with
  | Some 44 => (* ',' *)
      mkDecode (S (d_pos s)) (d_generatedColumn s) (d_sourcesIndex s)
        (d_sourceLine s) (d_sourceColumn s) (d_namesIndex s) (d_decoded s)
        (d_lastLineStart s) (d_count s) (d_lines s)
  | Some 59 => (* ';' *)
      mkDecode (S (d_pos s)) 0 (d_sourcesIndex s) (d_sourceLine s)
        (d_sourceColumn s) (d_namesIndex s)
        (maybeSort (d_decoded s) (d_lastLineStart s) (d_count s))
        (d_count s) (d_count s) (d_lines s ++ [d_count s])
  | _ => decode_record encoded s
  end.

(** The [for (let pos = 0; pos < encoded.length; )] loop.  Every round moves
    [pos] forward, so [slen encoded] rounds always suffice as [fuel] (see
    [decode_loop_done]). *)
Fixpoint decode_loop (fuel : nat) (encoded : string) (s : decode_state)
    : decode_state :=
  match fuel with
  | O => s
  | S fuel' =>
      if Nat.ltb (d_pos s) (slen encoded)
      then decode_loop fuel' encoded (decode_step encoded s)
      else s
  end.

Definition decode_init (lines : list Z) : decode_state :=
  mkDecode 0 0 1 1 1 1 (new_array 1000) 0 0 (lines ++ [0]).

(** The state of [decode] when its loop is left. *)
Definition decode_run (encoded : string) (lines : list Z) : decode_state :=
  decode_loop (slen encoded) encoded (decode_init lines).

(** [decode(encoded, lines)]: the trimmed buffer, with the final contents of
    the array [lines] that the caller passed in. *)
Definition decode (encoded : string) (lines : list Z) : Uint32Array * list Z :=
  let s := decode_run encoded lines in
  let lines := d_lines s ++ [d_count s] in
  let decoded := maybeSort (d_decoded s) (d_lastLineStart s) (d_count s) in
  (slice decoded 0 (d_count s), lines).

(** ** [segmentify], [searchComparator] *)

(** A [SourceMapSegment] is a tuple of one, four or five numbers. *)
Abbreviation SourceMapSegment := (list Z) (only parsing).

Definition segmentify (mappings : Uint32Array) (i : Z) : SourceMapSegment :=
  if aget mappings (i + 1) =? 0 then [aget mappings i]
  else if aget mappings (i + 4) =? 0 then
    [aget mappings i; aget mappings (i + 1) - 1; aget mappings (i + 2) - 1;
     aget mappings (i + 3) - 1]
  else
    [aget mappings i; aget mappings (i + 1) - 1; aget mappings (i + 2) - 1;
     aget mappings (i + 3) - 1; aget mappings (i + 4) - 1].

Definition searchComparator (column needle : Z) : Z := column - needle.

(** ** The class [EncodedSourceMapImpl] *)

Record EncodedSourceMapImpl : Type := mkMap {
  _lastIndex : Z;
  _lastLine : nat;
  _lastColumn : Z;
  _lineIndices : list Z;
  _encoded : string;
  _mappings : Uint32Array
}.

(** [new EncodedSourceMapImpl({ mappings: encoded })]. *)
Definition new_EncodedSourceMapImpl (encoded : string) : EncodedSourceMapImpl :=
  let '(mappings, lineIndices) := decode encoded [] in
  mkMap 0 0 0 lineIndices encoded mappings.

Definition encodedMappings (this : EncodedSourceMapImpl) : string :=
  _encoded this.

(** *** [decodedMappings] *)

(** The loop variables of [decodedMappings]; [dm_lineIndex] is [None] when
    [lineIndices[lineIndicesIndex]] is [undefined]. *)
Record dm_state : Type := mkDm {
  dm_decoded : list (list SourceMapSegment);
  dm_line : list SourceMapSegment;
  dm_lineIndicesIndex : nat;
  dm_lineIndex : option Z
}.

(** [while (i === lineIndex) { ... }]; a round moves [lineIndicesIndex]
    forward and an index past [lineIndices] ends the loop. *)
Fixpoint decodedMappings_while (fuel : nat) (lineIndices : list Z) (i : Z)
    (s : dm_state) : dm_state :=
  match fuel with
  | O => s
  | S fuel' =>
      match dm_lineIndex s with
      | Some lineIndex =>
          if i =? lineIndex then
            let lineIndicesIndex := S (dm_lineIndicesIndex s) in
            decodedMappings_while fuel' lineIndices i
              (mkDm (dm_decoded s ++ [dm_line s]) [] lineIndicesIndex
                 (nth_error lineIndices lineIndicesIndex))
          else s
      | None => s
      end
  end.

(** [for (let i = 0; i < mappings.length; i += ITEM_LENGTH) { ... }];
    [wfuel] is the fuel of the inner [while]. *)
Fixpoint decodedMappings_for (fuel wfuel : nat) (mappings : Uint32Array)
    (lineIndices : list Z) (i : Z) (s : dm_state) : dm_state :=
  match fuel with
  | O => s
  | S fuel' =>
      if i <? len mappings then
        let s := decodedMappings_while wfuel lineIndices i s in
        let s := mkDm (dm_decoded s) (dm_line s ++ [segmentify mappings i])
                   (dm_lineIndicesIndex s) (dm_lineIndex s) in
        decodedMappings_for fuel' wfuel mappings lineIndices (i + ITEM_LENGTH) s
      else s
  end.

(** [decodedMappings] with the fuel of its two loops. *)
Definition decodedMappings_fuel (fuel wfuel : nat) (this : EncodedSourceMapImpl)
    : list (list SourceMapSegment) :=
  let mappings := _mappings this in
  let lineIndices := _lineIndices this in
  let s := mkDm [] [] 1 (nth_error lineIndices 1) in
  let s := decodedMappings_for fuel wfuel mappings lineIndices 0 s in
  dm_decoded s ++ [dm_line s].

(** The outer loop runs at most [mappings.length] rounds and the inner one
    at most [lineIndices.length] rounds. *)
Definition decodedMappings (this : EncodedSourceMapImpl)
    : list (list SourceMapSegment) :=
  decodedMappings_fuel (List.length (_mappings this))
    (S (List.length (_lineIndices this))) this.

(** *** The search of './binary-search' *)

(** Modelled from the spec: [binarySearch] of the module [./binary-search],
    whose source is not at hand.  Section 4.3: "binary-search the line's
    record range for the rightmost record whose generatedColumn is <= the
    query column (i.e., search for the query, and on inexact match take the
    insertion point minus one)", "if no such record exists [...] report
    not-found".  The range is given as [traceSegment] passes it: [low] is the
    index of the first field of the first record, [high] the index of the
    last field of the last record, [stride] the record width.  The loop
    narrows [low..high] to the insertion point, taken after the records that
    compare equal to the needle; the answer is the record before it, and a
    negative number when there is none. *)
Fixpoint binarySearch_loop (fuel : nat) (haystack : Uint32Array) (needle : Z)
    (comparator : Z -> Z -> Z) (low high stride : Z) : Z :=
  match fuel with
  | O => low
  | S fuel' =>
      if low <=? high then
        let mid := low + stride * ((high - low) / stride / 2) in
        if comparator (aget haystack mid) needle <=? 0
        then binarySearch_loop fuel' haystack needle comparator
               (mid + stride) high stride
        else binarySearch_loop fuel' haystack needle comparator
               low (mid - 1) stride
      else low
  end.

(** Modelled from the spec: the result of [binarySearch], "on inexact match
    take the insertion point minus one"; [-1] reports that no record of the
    range qualifies ([traceSegment] tests [index < 0]). *)
Definition binarySearch (haystack : Uint32Array) (needle : Z)
    (comparator : Z -> Z -> Z) (low high stride : Z) : Z :=
  let insertion :=
    binarySearch_loop (Z.to_nat (high - low + 1)) haystack needle comparator
      low high stride in
  if insertion - stride <? low then -1 else insertion - stride.

(** Modelled from the spec: [memoizedBinarySearch] of the module
    [./binary-search], whose source is not at hand.  Section 4.3, "Memoized
    binary search": the state holds the last queried line, the last queried
    column and the index returned.  "If the new line differs from the cached
    line, or the new column is less than the cached column, perform a full
    binary search over the record range"; "if the new line matches and the
    new column is >= the cached column, begin the search scoped at-or-after
    the cached index rather than from the range start"; "cache is updated
    with the new line/column/result on every call, including not-found
    cases".  The three fields live on the map object, which [traceSegment]
    passes as the state. *)
Definition memoizedBinarySearch (haystack : Uint32Array) (needle : Z)
    (comparator : Z -> Z -> Z) (low high stride : Z)
    (state : EncodedSourceMapImpl) (line : nat) (column : Z)
    : Z * EncodedSourceMapImpl :=
  let low :=
    if Nat.eqb line (_lastLine state) && (_lastColumn state <=? column)
    then Z.max low (_lastIndex state)
    else low in
  let index := binarySearch haystack needle comparator low high stride in
  (index,
   mkMap index line column (_lineIndices state) (_encoded state)
     (_mappings state)).

(** *** [traceSegment] *)

(** [traceSegment(line, column)]: the segment or [None] for [null], with the
    map object after the call. *)
Definition traceSegment (this : EncodedSourceMapImpl) (line : nat) (column : Z)
    : option SourceMapSegment * EncodedSourceMapImpl :=
  let mappings := _mappings this in
  let lineIndices := _lineIndices this in
  if len lineIndices - 1 <=? Z.of_nat line then (None, this)
  else
    let '(index, this) :=
      memoizedBinarySearch mappings column searchComparator
        (aget lineIndices (Z.of_nat line))
        (aget lineIndices (Z.of_nat line + 1) - 1)
        ITEM_LENGTH this line column in
    if index <? 0 then (None, this)
    else (Some (segmentify mappings index), this).

(** The variant of [traceSegment] that ignores the cursor and searches the
    whole record range of the line on every call. *)
Definition traceSegment_scratch (this : EncodedSourceMapImpl) (line : nat)
    (column : Z) : option SourceMapSegment :=
  let mappings := _mappings this in
  let lineIndices := _lineIndices this in
  if len lineIndices - 1 <=? Z.of_nat line then None
  else
    let index :=
      binarySearch mappings column searchComparator
        (aget lineIndices (Z.of_nat line))
        (aget lineIndices (Z.of_nat line + 1) - 1)
        ITEM_LENGTH in
    if index <? 0 then None else Some (segmentify mappings index).

(** A sequence of queries on one map object, in order, with the results. *)
Fixpoint traceSegments (this : EncodedSourceMapImpl) (queries : list (nat * Z))
    : list (option SourceMapSegment) * EncodedSourceMapImpl :=
  match queries with
  | [] => ([], this)
  | (line, column) :: queries' =>
      let '(r, this) := traceSegment this line column in
      let '(rs, this) := traceSegments this queries' in
      (r :: rs, this)
  end.

(** * Vocabulary of the properties *)

(** A comparator that orders by a numeric key, as [sortComparator] does, and
    the order it sorts into. *)
Definition key_cmp {A : Type} (key : A -> Z) (x y : A) : Z := key x - key y.

Definition key_le {A : Type} (key : A -> Z) (x y : A) : Prop := key x <= key y.

(** The records of the range [start, end_) are in non-decreasing order of
    generated column: each record and the next one, as [isSorted] compares
    them. *)
Definition line_sorted (a : Uint32Array) (start end_ : Z) : Prop :=
  forall k, 0 <= k -> start + ITEM_LENGTH * (k + 1) < end_ ->
    aget a (start + ITEM_LENGTH * k) <= aget a (start + ITEM_LENGTH * (k + 1)).

(** [b] is at least as long as [a] and agrees with it below index [c]. *)
Definition extends (c : Z) (a b : Uint32Array) : Prop :=
  len a <= len b /\ forall j, j < c -> aget b j = aget a j.

(** The line table over an array: every entry is a record boundary, the
    entries do not decrease, and the records between two neighbouring
    entries are sorted. *)
Inductive lines_ok (a : Uint32Array) : list Z -> Prop :=
| lines_ok_one x : 0 <= x -> lines_ok a [x]
| lines_ok_cons x y l :
    0 <= x -> (exists n, 0 <= n /\ y = x + ITEM_LENGTH * n) ->
    line_sorted a x y -> lines_ok a (y :: l) -> lines_ok a (x :: y :: l).

Record decode_inv (s : decode_state) : Prop := mkDecodeInv {
  inv_last : exists l, d_lines s = l ++ [d_lastLineStart s];
  inv_lines : lines_ok (d_decoded s) (d_lines s);
  inv_hd : hd 0 (d_lines s) = 0;
  inv_count : exists n, 0 <= n /\ d_count s = d_lastLineStart s + ITEM_LENGTH * n;
  inv_room : d_count s <= len (d_decoded s);
  inv_cap : ITEM_LENGTH < len (d_decoded s)
}.

(** What the query functions rely on: the line table starts at 0, ends at
    the length of the buffer, and bounds sorted record ranges. *)
Record map_ok (this : EncodedSourceMapImpl) : Prop := mkMapOk {
  map_lines : lines_ok (_mappings this) (_lineIndices this);
  map_hd : hd 0 (_lineIndices this) = 0;
  map_last : last (_lineIndices this) 0 = len (_mappings this);
  map_two : (2 <= List.length (_lineIndices this))%nat
}.

Definition line_start (this : EncodedSourceMapImpl) (line : nat) : Z :=
  nth line (_lineIndices this) 0.

Definition line_end (this : EncodedSourceMapImpl) (line : nat) : Z :=
  nth (S line) (_lineIndices this) 0.

(** [line] is one of the generated lines of the map. *)
Definition known_line (this : EncodedSourceMapImpl) (line : nat) : Prop :=
  (S line < List.length (_lineIndices this))%nat.

(** [idx] is the buffer index of a record of the generated line [line]. *)
Definition record_of_line (this : EncodedSourceMapImpl) (line : nat) (idx : Z)
    : Prop :=
  exists k, 0 <= k /\ idx = line_start this line + ITEM_LENGTH * k /\
            idx < line_end this line.

(** The memoised cursor is harmless: when it points into the record range
    of its line, it points at a record whose column is at most the cached
    column. *)
Definition cursor_ok (this : EncodedSourceMapImpl) : Prop :=
  known_line this (_lastLine this) ->
  _lastIndex this <= line_start this (_lastLine this) \/
  (record_of_line this (_lastLine this) (_lastIndex this) /\
   aget (_mappings this) (_lastIndex this) <= _lastColumn this).

(** The index the search from scratch finds for an in-range line. *)
Definition scratch_index (this : EncodedSourceMapImpl) (line : nat) (column : Z) : Z :=
  binarySearch (_mappings this) column searchComparator
    (line_start this line) (line_end this line - 1) ITEM_LENGTH.

(** A map object as a program can hold it: built from an encoded string and
    then queried any number of times. *)
Definition queried (encoded : string) (queries : list (nat * Z))
    : EncodedSourceMapImpl :=
  snd (traceSegments (new_EncodedSourceMapImpl encoded) queries).

Definition scenario : EncodedSourceMapImpl :=
  new_EncodedSourceMapImpl "AAAA,SAAS;KACA".

(** The digit [decodeInteger] reads at a position. *)
Definition digit_at (encoded : string) (pos : nat) : Z :=
  base64Index_at (charCodeAt encoded pos).

(** [ds] is the digit sequence of the value that starts at [pos]: every
    digit but the last carries the continuation flag 32. *)
Fixpoint vlq_digits (encoded : string) (pos : nat) (ds : list Z) : Prop :=
  match ds with
  | [] => False
  | d :: ds' =>
      digit_at encoded pos = d /\
      match ds' with
      | [] => Z.land d 32 = 0
      | _ :: _ => Z.land d 32 <> 0 /\ vlq_digits encoded (S pos) ds'
      end
  end.

(** The 5-bit groups of the digits, least significant group first. *)
Fixpoint vlq_reassemble (ds : list Z) : Z :=
  match ds with
  | [] => 0
  | d :: ds' => Z.land d 31 + 32 * vlq_reassemble ds'
  end.

(** The branch the [switch] of [decode] takes on a character. *)
Inductive branch : Type := Comma | Semicolon | Record_.

Definition branch_of (c : option Z) : branch :=
  match c with
  | Some 44 => Comma
  | Some 59 => Semicolon
  | _ => Record_
  end.

(** The control flow of the loop of [decode] alone: the number of records
    decoded for each generated line, in order; [current] counts the records
    of the line that is still open. *)
Fixpoint line_record_counts_loop (fuel : nat) (encoded : string)
    (s : decode_state) (current : nat) : list nat :=
  match fuel with
  | O => [current]
  | S fuel' =>
      if Nat.ltb (d_pos s) (slen encoded) then
        match branch_of (charCodeAt encoded (d_pos s)) with
        | Comma =>
            line_record_counts_loop fuel' encoded (decode_step encoded s) current
        | Semicolon =>
            current :: line_record_counts_loop fuel' encoded (decode_step encoded s) 0
        | Record_ =>
            line_record_counts_loop fuel' encoded (decode_step encoded s) (S current)
        end
      else [current]
  end.

(** One entry per generated line the decoder observes, trailing empty lines
    included. *)
Definition line_record_counts (encoded : string) : list nat :=
  line_record_counts_loop (slen encoded) encoded (decode_init []) 0.

(** The running ends of consecutive ranges of [counts] records that start
    at [start], in buffer indices. *)
Fixpoint offsets (start : Z) (counts : list nat) : list Z :=
  match counts with
  | [] => []
  | c :: counts' =>
      let end_ := start + ITEM_LENGTH * Z.of_nat c in
      end_ :: offsets end_ counts'
  end.

(** The code units of a string. *)
Definition codes (s : string) : list Z :=
  map (fun c => Z.of_nat (nat_of_ascii c)) (list_ascii_of_string s).

Definition is_separator (c : Z) : bool := (c =? 44) || (c =? 59).

(** The character is a digit with the continuation flag. *)
Definition continues (c : Z) : bool :=
  negb (Z.land (base64Index_at (Some c)) 32 =? 0).

(** A segment holds one, four or five values (or nothing, between two
    separators). *)
Definition arity_ok (fields : nat) : bool :=
  match fields with
  | 0 | 1 | 4 | 5 => true
  | _ => false
  end%nat.

(** The shape of a mapping string (section 3 of the specification): values
    are runs of continuation digits closed by a digit without the flag,
    segments are one, four or five values, and separators stand between
    segments only.  [fields] counts the values of the segment read so far,
    [mid] tells that the last digit asked for more. *)
Fixpoint segments_ok (l : list Z) (fields : nat) (mid : bool) : bool :=
  match l with
  | [] => negb mid && arity_ok fields
  | c :: l' =>
      if is_separator c then negb mid && arity_ok fields && segments_ok l' 0 false
      else if continues c then Nat.ltb fields 5 && segments_ok l' fields true
      else Nat.ltb fields 5 && segments_ok l' (S fields) false
  end.

Definition well_formed (encoded : string) : bool :=
  segments_ok (codes encoded) 0 false.

(** The number of [;] in a string. *)
Definition semicolons (encoded : string) : nat :=
  count_occ Z.eq_dec (codes encoded) 59.

(** A separator or the end of the string stands at [pos]. *)
Definition at_boundary (encoded : string) (pos : nat) : Prop :=
  match charCodeAt encoded pos with
  | Some c => is_separator c = true
  | None => True
  end.

(** ** Vocabulary of the further properties *)

(** An unsigned 32-bit value. *)
Definition uint32 (x : Z) : Prop := 0 <= x < 2 ^ 32.

(** Every element of [a] from index [c] on is 0. *)
Definition zero_from (a : Uint32Array) (c : Z) : Prop :=
  forall j, c <= j -> aget a j = 0.

(** The state of [decode] after [rounds] rounds of its loop (or at its end,
    when the loop is left earlier). *)
Definition decode_after (rounds : nat) (encoded : string) : decode_state :=
  decode_loop rounds encoded (decode_init []).

(** The buffer indices of the records of the range [lo, hi): [lo], [lo + 5],
    and so on below [hi], as the loop of [decodedMappings] counts them. *)
Definition record_starts (lo hi : Z) : list Z :=
  map (fun k => lo + ITEM_LENGTH * Z.of_nat k)
    (seq 0 (Z.to_nat ((hi - lo + ITEM_LENGTH - 1) / ITEM_LENGTH))).

(** The segments of the records of the range [lo, hi) of a buffer. *)
Definition range_segments (mappings : Uint32Array) (lo hi : Z)
    : list SourceMapSegment :=
  map (segmentify mappings) (record_starts lo hi).

(** The segments of the generated line [line], read off the line table. *)
Definition line_segments (this : EncodedSourceMapImpl) (line : nat)
    : list SourceMapSegment :=
  range_segments (_mappings this) (line_start this line) (line_end this line).

(** The state of the loop of [decodedMappings] at record index [i] while
    line [j] is collected: the lines before [j] are pushed, and [dm_line]
    holds the records of line [j] below [i]. *)
Definition dm_inv (mappings : Uint32Array) (lineIndices : list Z) (i : Z)
    (j : nat) (s : dm_state) : Prop :=
  dm_lineIndicesIndex s = S j /\
  (S j < List.length lineIndices)%nat /\
  dm_lineIndex s = nth_error lineIndices (S j) /\
  nth j lineIndices 0 <= i <= nth (S j) lineIndices 0 /\
  dm_decoded s =
    map (fun l => range_segments mappings (nth l lineIndices 0)
                    (nth (S l) lineIndices 0)) (seq 0 j) /\
  dm_line s = range_segments mappings (nth j lineIndices 0) i.

(** The fields of a segment as [segmentify] makes them from unsigned 32-bit
    integers: one, four or five fields; the generated column as stored; each
    other field one less than stored, where the source index and the name
    index were stored as non-zero. *)
Definition segment_fields_ok (seg : SourceMapSegment) : Prop :=
  match seg with
  | [column] => uint32 column
  | [column; source; line; col] =>
      uint32 column /\ 0 <= source < 2 ^ 32 - 1 /\
      - 1 <= line < 2 ^ 32 - 1 /\ - 1 <= col < 2 ^ 32 - 1
  | [column; source; line; col; name] =>
      uint32 column /\ 0 <= source < 2 ^ 32 - 1 /\
      - 1 <= line < 2 ^ 32 - 1 /\ - 1 <= col < 2 ^ 32 - 1 /\
      0 <= name < 2 ^ 32 - 1
  | _ => False
  end.

(** The state [s] with the array [lines] of the caller holding the entries
    [l] before its own. *)
Definition with_lines_before (l : list Z) (s : decode_state) : decode_state :=
  mkDecode (d_pos s) (d_generatedColumn s) (d_sourcesIndex s) (d_sourceLine s)
    (d_sourceColumn s) (d_namesIndex s) (d_decoded s) (d_lastLineStart s)
    (d_count s) (l ++ d_lines s).

(** [c] is the code unit of one of the 64 digits of [base64]. *)
Definition base64_digit (c : Z) : bool :=
  existsb (fun i => match charCodeAt base64 i with
                    | Some d => d =? c
                    | None => false
                    end) (seq 0 64).

(** The state [s] one position further in the string. *)
Definition shift_pos (s : decode_state) : decode_state :=
  mkDecode (S (d_pos s)) (d_generatedColumn s) (d_sourcesIndex s)
    (d_sourceLine s) (d_sourceColumn s) (d_namesIndex s) (d_decoded s)
    (d_lastLineStart s) (d_count s) (d_lines s).

(** * Properties *)

(** ** Typed arrays *)

Lemma len_nonneg {A} (l : list A) : 0 <= len l.
Proof. unfold len. lia. Qed.

Lemma len_aset a i v : len (aset a i v) = len a.
Proof.
  unfold aset.
  destruct ((0 <=? i) && (i <? len a)) eqn:E; [|reflexivity].
  apply andb_true_iff in E. destruct E as [E1 E2].
  apply Z.leb_le in E1. apply Z.ltb_lt in E2.
  unfold len in *.
  rewrite length_app. cbn [List.length]. rewrite length_firstn, length_skipn.
  lia.
Qed.

Lemma aget_outside a i : len a <= i -> aget a i = 0.
Proof.
  intros H. unfold aget. destruct (i <? 0); [reflexivity|].
  apply nth_overflow. unfold len in H. lia.
Qed.

Lemma aget_neg a i : i < 0 -> aget a i = 0.
Proof.
  intros H. unfold aget. destruct (Z.ltb_spec i 0); [reflexivity|lia].
Qed.

Lemma aget_aset_eq a i v : 0 <= i < len a -> aget (aset a i v) i = v.
Proof.
  intros H. unfold aset, aget.
  destruct (Z.leb_spec 0 i); [|lia].
  destruct (Z.ltb_spec i (len a)); [|lia].
  destruct (Z.ltb_spec i 0); [lia|]. cbn [andb].
  unfold len in *.
  rewrite app_nth2; rewrite length_firstn;
    replace (Init.Nat.min (Z.to_nat i) (List.length a)) with (Z.to_nat i) by lia.
  - rewrite Nat.sub_diag. reflexivity.
  - lia.
Qed.

Lemma aget_aset_neq a i j v : i <> j -> aget (aset a i v) j = aget a j.
Proof.
  intros H. unfold aset.
  destruct (Z.leb_spec 0 i); [|reflexivity].
  destruct (Z.ltb_spec i (len a)); [|reflexivity].
  cbn [andb]. unfold aget.
  destruct (Z.ltb_spec j 0); [reflexivity|].
  unfold len in *.
  assert (Hmin : Init.Nat.min (Z.to_nat i) (List.length a) = Z.to_nat i) by lia.
  destruct (Z.lt_ge_cases j i) as [Hlt|Hge].
  - rewrite app_nth1 by (rewrite length_firstn; lia).
    rewrite nth_firstn.
    destruct (Nat.ltb_spec (Z.to_nat j) (Z.to_nat i)); [reflexivity|lia].
  - rewrite app_nth2 by (rewrite length_firstn; lia).
    rewrite length_firstn, Hmin.
    replace (Z.to_nat j - Z.to_nat i)%nat
      with (S (Z.to_nat j - S (Z.to_nat i)))%nat by lia.
    cbn [nth]. rewrite nth_skipn. f_equal. lia.
Qed.

Lemma len_set_from src : forall a off, len (set_from a src off) = len a.
Proof.
  induction src as [|v src IH]; intros a off; cbn [set_from]; [reflexivity|].
  rewrite IH. apply len_aset.
Qed.

Lemma aget_set_from_outside src : forall a off j,
  j < off \/ off + len src <= j ->
  aget (set_from a src off) j = aget a j.
Proof.
  induction src as [|v src IH]; intros a off j H; cbn [set_from]; [reflexivity|].
  assert (Hl : len (v :: src) = 1 + len src) by (unfold len; cbn [List.length]; lia).
  pose proof (len_nonneg src).
  rewrite IH by lia. apply aget_aset_neq. lia.
Qed.

Lemma aget_set_from_inside src : forall a off k,
  0 <= off -> off + len src <= len a -> 0 <= k < len src ->
  aget (set_from a src off) (off + k) = aget src k.
Proof.
  induction src as [|v src IH]; intros a off k Hoff Hfit Hk.
  - unfold len in Hk. cbn in Hk. lia.
  - assert (Hl : len (v :: src) = 1 + len src) by (unfold len; cbn [List.length]; lia).
    cbn [set_from].
    destruct (Z.eq_dec k 0) as [->|Hk0].
    + rewrite aget_set_from_outside by lia.
      rewrite Z.add_0_r. rewrite aget_aset_eq by lia. reflexivity.
    + replace (off + k) with ((off + 1) + (k - 1)) by lia.
      rewrite IH; rewrite ?len_aset; try lia.
      unfold aget.
      destruct (Z.ltb_spec (k - 1) 0); [lia|].
      destruct (Z.ltb_spec k 0); [lia|].
      replace (Z.to_nat k) with (S (Z.to_nat (k - 1))) by lia. reflexivity.
Qed.

Lemma len_new_array n : 0 <= n -> len (new_array n) = n.
Proof. intros H. unfold len, new_array. rewrite repeat_length. lia. Qed.

Lemma aget_new_array n i : aget (new_array n) i = 0.
Proof.
  unfold aget, new_array. destruct (i <? 0); [reflexivity|].
  destruct (Nat.lt_ge_cases (Z.to_nat i) (Z.to_nat n)).
  - apply nth_repeat_lt. assumption.
  - apply nth_overflow. rewrite repeat_length. assumption.
Qed.

Lemma len_slice a lo hi :
  0 <= lo <= hi -> hi <= len a -> len (slice a lo hi) = hi - lo.
Proof.
  intros H1 H2. unfold slice, len in *.
  rewrite length_firstn, length_skipn. lia.
Qed.

Lemma aget_slice a lo hi k :
  0 <= lo -> 0 <= k < hi - lo -> aget (slice a lo hi) k = aget a (lo + k).
Proof.
  intros Hlo Hk. unfold slice, aget.
  destruct (Z.ltb_spec k 0); [lia|].
  destruct (Z.ltb_spec (lo + k) 0); [lia|].
  rewrite nth_firstn.
  destruct (Nat.ltb_spec (Z.to_nat k) (Z.to_nat (hi - lo))); [|lia].
  rewrite nth_skipn. f_equal. lia.
Qed.

(** [reserve] never changes what the array holds, and leaves room for
    [count] more elements when the array is longer than [count]. *)
Lemma aget_reserve buf pos count j : aget (reserve buf pos count) j = aget buf j.
Proof.
  unfold reserve. destruct (pos + count <? len buf); [reflexivity|].
  pose proof (len_nonneg buf).
  destruct (Z.lt_ge_cases j 0).
  - rewrite !aget_neg by assumption. reflexivity.
  - destruct (Z.lt_ge_cases j (len buf)).
    + replace j with (0 + j) at 1 by lia.
      rewrite aget_set_from_inside; rewrite ?len_new_array; lia.
    + rewrite aget_set_from_outside by lia.
      rewrite aget_new_array, aget_outside by lia. reflexivity.
Qed.

Lemma len_reserve buf pos count :
  count < len buf -> pos <= len buf ->
  pos + count < len (reserve buf pos count) /\ len buf <= len (reserve buf pos count).
Proof.
  intros H1 H2. unfold reserve.
  destruct (Z.ltb_spec (pos + count) (len buf)); [lia|].
  rewrite len_set_from, len_new_array by lia. lia.
Qed.

(** ** The stable sort *)

Section StableSortFacts.
Context {A : Type} (key : A -> Z).

Lemma insert_sorted_perm x l :
  Permutation (x :: l) (insert_sorted (key_cmp key) x l).
Proof.
  induction l as [|y l IH]; cbn [insert_sorted]; [reflexivity|].
  destruct (key_cmp key x y <=? 0); [reflexivity|].
  rewrite perm_swap. apply perm_skip. exact IH.
Qed.

Lemma array_sort_perm l : Permutation l (array_sort (key_cmp key) l).
Proof.
  induction l as [|x l IH]; cbn [array_sort]; [reflexivity|].
  rewrite <- insert_sorted_perm. apply perm_skip. exact IH.
Qed.

Lemma insert_sorted_HdRel y x l :
  key_le key y x -> HdRel (key_le key) y l ->
  HdRel (key_le key) y (insert_sorted (key_cmp key) x l).
Proof.
  intros Hyx Hl. destruct l as [|z l]; cbn [insert_sorted].
  - constructor. exact Hyx.
  - destruct (key_cmp key x z <=? 0); constructor.
    + exact Hyx.
    + inversion Hl; assumption.
Qed.

Lemma insert_sorted_Sorted x l :
  Sorted (key_le key) l -> Sorted (key_le key) (insert_sorted (key_cmp key) x l).
Proof.
  induction l as [|y l IH]; intros Hs; cbn [insert_sorted].
  - repeat constructor.
  - destruct (Z.leb_spec (key_cmp key x y) 0) as [Hle|Hgt].
    + constructor; [exact Hs|]. constructor. unfold key_le, key_cmp in *. lia.
    + inversion Hs as [|? ? Hs' Hhd]; subst.
      constructor; [apply IH; exact Hs'|].
      apply insert_sorted_HdRel; [|exact Hhd].
      unfold key_le, key_cmp in *. lia.
Qed.

Lemma array_sort_Sorted l : Sorted (key_le key) (array_sort (key_cmp key) l).
Proof.
  induction l as [|x l IH]; cbn [array_sort]; [constructor|].
  apply insert_sorted_Sorted. exact IH.
Qed.

(** Stability: the elements with a given key come out in the order they
    went in. *)
Lemma insert_sorted_stable k x l :
  Sorted (key_le key) l ->
  filter (fun y => key y =? k) (insert_sorted (key_cmp key) x l) =
  filter (fun y => key y =? k) (x :: l).
Proof.
  induction l as [|y l IH]; intros Hs; cbn [insert_sorted]; [reflexivity|].
  destruct (Z.leb_spec (key_cmp key x y) 0) as [Hle|Hgt]; [reflexivity|].
  inversion Hs as [|? ? Hs' Hhd]; subst.
  cbn [filter]. rewrite (IH Hs'). cbn [filter].
  unfold key_cmp in Hgt.
  destruct (Z.eqb_spec (key x) k), (Z.eqb_spec (key y) k); try reflexivity. lia.
Qed.

Lemma array_sort_stable k l :
  filter (fun y => key y =? k) (array_sort (key_cmp key) l) =
  filter (fun y => key y =? k) l.
Proof.
  induction l as [|x l IH]; cbn [array_sort]; [reflexivity|].
  rewrite insert_sorted_stable by apply array_sort_Sorted.
  cbn [filter]. rewrite IH. reflexivity.
Qed.

Lemma Sorted_nth_step (d : A) l :
  Sorted (key_le key) l ->
  forall k, (S k < List.length l)%nat -> key (nth k l d) <= key (nth (S k) l d).
Proof.
  induction 1 as [|x l Hs IH Hhd]; intros k Hk; cbn [List.length] in Hk; [lia|].
  destruct k as [|k].
  - destruct l as [|y l]; cbn [List.length] in Hk; [lia|].
    inversion Hhd; subst. cbn [nth]. assumption.
  - cbn [nth]. apply IH. lia.
Qed.
End StableSortFacts.

(** ** The line normaliser *)

Lemma isSorted_loop_sound state end_ : forall fuel i,
  end_ - i < Z.of_nat fuel ->
  isSorted_loop fuel state i end_ = true ->
  forall k, 0 <= k -> i + ITEM_LENGTH * k < end_ ->
    aget state (i + ITEM_LENGTH * k - ITEM_LENGTH) <= aget state (i + ITEM_LENGTH * k).
Proof.
  unfold ITEM_LENGTH.
  induction fuel as [|fuel IH]; intros i Hf Hs k Hk Hlt; [lia|].
  cbn [isSorted_loop] in Hs. unfold ITEM_LENGTH in Hs.
  destruct (Z.ltb_spec i end_) as [Hi|Hi]; [|lia].
  destruct (Z.ltb_spec (aget state i) (aget state (i - 5))) as [|Hle]; [discriminate|].
  destruct (Z.eq_dec k 0) as [->|Hk0].
  - rewrite Z.mul_0_r, Z.add_0_r. exact Hle.
  - replace (i + 5 * k) with (i + 5 + 5 * (k - 1)) by lia.
    apply IH; try assumption; lia.
Qed.

Lemma isSorted_sound state start end_ :
  isSorted state start end_ = true -> line_sorted state start end_.
Proof.
  intros Hs k Hk Hlt. unfold isSorted in Hs.
  pose proof (isSorted_loop_sound state end_ (Z.to_nat (end_ - start))
                (start + ITEM_LENGTH)) as H.
  unfold ITEM_LENGTH in *.
  specialize (H ltac:(lia) Hs k Hk ltac:(lia)).
  replace (start + 5 + 5 * k - 5) with (start + 5 * k) in H by lia.
  replace (start + 5 + 5 * k) with (start + 5 * (k + 1)) in H by lia.
  exact H.
Qed.

(** What the first loop of [maybeSort] collects for a range of [n] records:
    [n] copies of the record at [start]. *)
Lemma maybeSort_collect_repeat state start : forall fuel n i segments,
  (Z.to_nat n <= fuel)%nat -> 0 <= n ->
  maybeSort_collect fuel state start i (i + ITEM_LENGTH * n) segments =
  segments ++ repeat (slice state start (start + ITEM_LENGTH)) (Z.to_nat n).
Proof.
  unfold ITEM_LENGTH.
  induction fuel as [|fuel IH]; intros n i segments Hf Hn.
  - replace (Z.to_nat n) with 0%nat by lia. cbn. rewrite app_nil_r. reflexivity.
  - cbn [maybeSort_collect]. unfold ITEM_LENGTH.
    destruct (Z.ltb_spec i (i + 5 * n)) as [Hlt|Hge].
    + replace (i + 5 * n) with (i + 5 + 5 * (n - 1)) by lia.
      rewrite IH by lia. rewrite <- app_assoc. cbn [app].
      replace (Z.to_nat n) with (S (Z.to_nat (n - 1))) by lia. reflexivity.
    + replace (Z.to_nat n) with 0%nat by lia. cbn. rewrite app_nil_r. reflexivity.
Qed.

(** What the second loop of [maybeSort] writes: segment [k] lands on record
    [i + k] of the range, and nothing else changes. *)
Lemma maybeSort_write_spec : forall segments state start i,
  Forall (fun seg => len seg = ITEM_LENGTH) segments ->
  0 <= start -> 0 <= i ->
  start + ITEM_LENGTH * (i + len segments) <= len state ->
  let r := maybeSort_write state segments start i in
  len r = len state /\
  (forall j, j < start + ITEM_LENGTH * i \/
             start + ITEM_LENGTH * (i + len segments) <= j ->
             aget r j = aget state j) /\
  (forall k f, 0 <= k < len segments -> 0 <= f < ITEM_LENGTH ->
     aget r (start + ITEM_LENGTH * (i + k) + f) =
     aget (nth (Z.to_nat k) segments []) f).
Proof.
  unfold ITEM_LENGTH.
  induction segments as [|seg segments IH]; intros state start i Hall Hs Hi Hfit.
  - cbn. repeat split; trivial. intros k f Hk. unfold len in Hk. cbn in Hk. lia.
  - assert (Hl : len (seg :: segments) = 1 + len segments)
      by (unfold len; cbn [List.length]; lia).
    pose proof (len_nonneg segments) as Hnn.
    inversion Hall as [|? ? Hseg Hall']; subst.
    cbn [maybeSort_write]. unfold ITEM_LENGTH.
    specialize (IH (set_from state seg (start + i * 5)) start (i + 1) Hall' Hs
                  ltac:(lia)).
    rewrite len_set_from in IH. specialize (IH ltac:(lia)).
    cbn zeta in IH. destruct IH as (IH1 & IH2 & IH3).
    cbn zeta. split; [exact IH1|]. split.
    + intros j Hj. rewrite IH2 by lia. apply aget_set_from_outside. lia.
    + intros k f Hk Hf.
      destruct (Z.eq_dec k 0) as [->|Hk0].
      * rewrite IH2 by lia. cbn [Z.to_nat nth].
        replace (start + 5 * (i + 0) + f) with (start + i * 5 + f) by lia.
        apply aget_set_from_inside; lia.
      * replace (start + 5 * (i + k) + f) with (start + 5 * (i + 1 + (k - 1)) + f) by lia.
        rewrite IH3 by lia.
        replace (Z.to_nat k) with (S (Z.to_nat (k - 1))) by lia. reflexivity.
Qed.

(** [maybeSort] on a range of [n] whole records inside the array: the array
    keeps its length, nothing outside the range changes, and the range is
    sorted afterwards. *)
Lemma maybeSort_spec state start n :
  0 <= start -> 0 <= n -> start + ITEM_LENGTH * n <= len state ->
  let r := maybeSort state start (start + ITEM_LENGTH * n) in
  len r = len state /\
  (forall j, j < start \/ start + ITEM_LENGTH * n <= j -> aget r j = aget state j) /\
  line_sorted r start (start + ITEM_LENGTH * n).
Proof.
  intros Hs Hn Hfit. unfold maybeSort.
  destruct (isSorted state start (start + ITEM_LENGTH * n)) eqn:E.
  { cbn zeta. repeat split; trivial. apply isSorted_sound. exact E. }
  rewrite maybeSort_collect_repeat by (unfold ITEM_LENGTH; lia).
  cbn [app].
  set (seg := slice state start (start + ITEM_LENGTH)).
  set (segments := array_sort sortComparator (repeat seg (Z.to_nat n))).
  assert (Hperm : Permutation (repeat seg (Z.to_nat n)) segments)
    by apply (array_sort_perm (fun a => aget a 0)).
  assert (Hlen : len segments = n).
  { pose proof (Permutation_length Hperm) as HL. rewrite repeat_length in HL.
    unfold len in *. lia. }
  assert (Hall : Forall (fun s => len s = ITEM_LENGTH) segments).
  { destruct (Z.eq_dec n 0) as [->|Hn0].
    - destruct segments; [constructor|]. unfold len in Hlen. cbn in Hlen. lia.
    - eapply Permutation_Forall; [exact Hperm|].
      apply Forall_forall. intros s Hin. apply repeat_spec in Hin. subst s.
      unfold seg. rewrite len_slice; unfold ITEM_LENGTH in *; lia. }
  pose proof (maybeSort_write_spec segments state start 0 Hall Hs ltac:(lia)) as H.
  rewrite Hlen in H. specialize (H ltac:(unfold ITEM_LENGTH in *; lia)).
  cbn zeta in H. destruct H as (H1 & H2 & H3).
  cbn zeta. split; [exact H1|]. split.
  - intros j Hj. apply H2. unfold ITEM_LENGTH in *. lia.
  - intros k Hk Hlt.
    pose proof (H3 k 0 ltac:(unfold ITEM_LENGTH in *; lia) ltac:(unfold ITEM_LENGTH; lia)) as Ha.
    pose proof (H3 (k + 1) 0 ltac:(unfold ITEM_LENGTH in *; lia) ltac:(unfold ITEM_LENGTH; lia)) as Hb.
    rewrite Z.add_0_l, Z.add_0_r in Ha, Hb. rewrite Ha, Hb.
    replace (Z.to_nat (k + 1)) with (S (Z.to_nat k)) by lia.
    apply (Sorted_nth_step (fun a => aget a 0)).
    + apply (array_sort_Sorted (fun a => aget a 0)).
    + fold segments. unfold len in Hlen. unfold ITEM_LENGTH in *. lia.
Qed.

(** What [maybeSort] does to a range that is out of order: every record of
    the range becomes a copy of its first record. *)
Lemma maybeSort_unsorted state start n :
  0 <= start -> 0 <= n -> start + ITEM_LENGTH * n <= len state ->
  isSorted state start (start + ITEM_LENGTH * n) = false ->
  forall k f, 0 <= k < n -> 0 <= f < ITEM_LENGTH ->
  aget (maybeSort state start (start + ITEM_LENGTH * n))
    (start + ITEM_LENGTH * k + f) = aget state (start + f).
Proof.
  intros Hs Hn Hfit Hunsorted k f Hk Hf. unfold maybeSort. rewrite Hunsorted.
  rewrite maybeSort_collect_repeat by (unfold ITEM_LENGTH; lia).
  cbn [app].
  set (seg := slice state start (start + ITEM_LENGTH)).
  set (segments := array_sort sortComparator (repeat seg (Z.to_nat n))).
  assert (Hperm : Permutation (repeat seg (Z.to_nat n)) segments)
    by apply (array_sort_perm (fun a => aget a 0)).
  assert (Hlen : len segments = n).
  { pose proof (Permutation_length Hperm) as HL. rewrite repeat_length in HL.
    unfold len in *. lia. }
  assert (Hall : Forall (fun s => s = seg) segments).
  { eapply Permutation_Forall; [exact Hperm|].
    apply Forall_forall. intros s Hin. apply repeat_spec in Hin. exact Hin. }
  assert (Hseg : len seg = ITEM_LENGTH).
  { unfold seg. rewrite len_slice; unfold ITEM_LENGTH in *; lia. }
  assert (Hall5 : Forall (fun s => len s = ITEM_LENGTH) segments).
  { eapply Forall_impl; [|exact Hall]. intros s ->. exact Hseg. }
  pose proof (maybeSort_write_spec segments state start 0 Hall5 Hs ltac:(lia)) as H.
  rewrite Hlen in H. specialize (H ltac:(unfold ITEM_LENGTH in *; lia)).
  cbn zeta in H. destruct H as (_ & _ & H3).
  specialize (H3 k f Hk Hf). rewrite Z.add_0_l in H3. rewrite H3.
  assert (Hnth : nth (Z.to_nat k) segments [] = seg).
  { rewrite Forall_forall in Hall. apply Hall. apply nth_In.
    unfold len in Hlen. lia. }
  rewrite Hnth. unfold seg. apply aget_slice; unfold ITEM_LENGTH in *; lia.
Qed.

(** ** [decodeInteger]: positions *)

Lemma decodeInteger_loop_pos encoded : forall fuel pos value shift,
  (pos < snd (decodeInteger_loop fuel encoded pos value shift))%nat.
Proof.
  induction fuel as [|fuel IH]; intros pos value shift; cbn [decodeInteger_loop];
    destruct (Z.land (base64Index_at (charCodeAt encoded pos)) 32 =? 0);
    cbn [snd]; try lia.
  eapply Nat.lt_trans; [|apply IH]. lia.
Qed.

Lemma decodeInteger_value_pos encoded pos :
  (pos < snd (decodeInteger_value encoded pos))%nat.
Proof.
  unfold decodeInteger_value.
  pose proof (decodeInteger_loop_pos encoded (slen encoded - pos) pos 0 0) as H.
  destruct (decodeInteger_loop (slen encoded - pos) encoded pos 0 0) as [v p].
  cbn [snd] in *. exact H.
Qed.

Lemma decodeInteger_eq encoded pos state index :
  decodeInteger encoded pos state index =
  (snd (decodeInteger_value encoded pos),
   aset state index (ToUint32 (fst (decodeInteger_value encoded pos)))).
Proof.
  unfold decodeInteger. destruct (decodeInteger_value encoded pos). reflexivity.
Qed.

(** ** [decode]: the invariant of the loop *)

Lemma extends_reserve c a pos count :
  count < len a -> pos <= len a -> extends c a (reserve a pos count).
Proof.
  intros H1 H2. split; [apply len_reserve; assumption|].
  intros j _. apply aget_reserve.
Qed.

(** One record: [pos] moves forward, [count] grows by one record, the line
    table is untouched and the array only changes from [count] on. *)
Lemma decode_record_spec encoded s :
  ITEM_LENGTH < len (d_decoded s) -> d_count s <= len (d_decoded s) ->
  let s' := decode_record encoded s in
  (d_pos s < d_pos s')%nat /\
  d_lines s' = d_lines s /\
  d_lastLineStart s' = d_lastLineStart s /\
  d_count s' = d_count s + ITEM_LENGTH /\
  extends (d_count s) (d_decoded s) (d_decoded s') /\
  d_count s' <= len (d_decoded s').
Proof.
  intros Hroom Hcount.
  pose proof (len_reserve (d_decoded s) (d_count s) ITEM_LENGTH Hroom Hcount) as [Hr1 Hr2].
  pose proof (extends_reserve (d_count s) (d_decoded s) (d_count s) ITEM_LENGTH
                Hroom Hcount) as Hext.
  unfold decode_record, add_assign.
  repeat (rewrite decodeInteger_eq; cbn beta iota zeta).
  set (b0 := reserve (d_decoded s) (d_count s) ITEM_LENGTH) in *.
  set (p1 := snd (decodeInteger_value encoded (d_pos s))).
  assert (Hp1 : (d_pos s < p1)%nat) by apply decodeInteger_value_pos.
  set (p2 := snd (decodeInteger_value encoded p1)).
  assert (Hp2 : (p1 < p2)%nat) by apply decodeInteger_value_pos.
  set (p3 := snd (decodeInteger_value encoded p2)).
  assert (Hp3 : (p2 < p3)%nat) by apply decodeInteger_value_pos.
  set (p4 := snd (decodeInteger_value encoded p3)).
  assert (Hp4 : (p3 < p4)%nat) by apply decodeInteger_value_pos.
  set (p5 := snd (decodeInteger_value encoded p4)).
  assert (Hp5 : (p4 < p5)%nat) by apply decodeInteger_value_pos.
  destruct (hasMoreMappings encoded p1); cbn [negb];
    [destruct (hasMoreMappings encoded p4); cbn [negb]|];
    cbn [d_pos d_lines d_lastLineStart d_count d_decoded];
    repeat split; trivial;
    first
      [ unfold ITEM_LENGTH in *; lia
      | rewrite !len_aset; apply Hext
      | intros j Hj; rewrite !aget_aset_neq by lia; apply Hext; exact Hj
      | rewrite !len_aset; unfold ITEM_LENGTH in *; lia ].
Qed.

Lemma lines_ok_le_last a l :
  lines_ok a l -> forall e, In e l -> 0 <= e <= last l 0.
Proof.
  induction 1 as [x Hx|x y l Hx (n & Hn & Hy) Hs Hok IH]; intros e Hin.
  - destruct Hin as [<-|[]]. cbn. lia.
  - change (last (x :: y :: l) 0) with (last (y :: l) 0).
    destruct Hin as [<-|Hin]; [|apply IH; exact Hin].
    specialize (IH y (or_introl eq_refl)). unfold ITEM_LENGTH in *. lia.
Qed.

Lemma lines_ok_snoc a l x y :
  lines_ok a (l ++ [x]) ->
  (exists n, 0 <= n /\ y = x + ITEM_LENGTH * n) -> line_sorted a x y ->
  lines_ok a (l ++ [x; y]).
Proof.
  intros Hok Hy Hs.
  induction l as [|z l IH]; cbn [app] in *.
  - inversion Hok; subst. destruct Hy as (n & Hn & Hy).
    constructor; trivial; [exists n; auto|].
    constructor. unfold ITEM_LENGTH in *. lia.
  - destruct l as [|z' l]; cbn [app] in *.
    + inversion Hok; subst. constructor; trivial. apply IH. assumption.
    + inversion Hok; subst. constructor; trivial. apply IH. assumption.
Qed.

Lemma line_sorted_frame a b x y :
  0 <= x -> (forall j, 0 <= j < y -> aget b j = aget a j) ->
  line_sorted a x y -> line_sorted b x y.
Proof.
  intros Hx Hf Hs k Hk Hlt. unfold ITEM_LENGTH in *.
  rewrite !Hf by lia. apply Hs; assumption.
Qed.

Lemma lines_ok_frame a b l :
  lines_ok a l -> (forall j, 0 <= j < last l 0 -> aget b j = aget a j) ->
  lines_ok b l.
Proof.
  induction 1 as [x Hx|x y l Hx Hn Hs Hok IH]; intros Hf.
  - constructor. exact Hx.
  - change (last (x :: y :: l) 0) with (last (y :: l) 0) in Hf.
    constructor; trivial; [|apply IH; exact Hf].
    eapply line_sorted_frame; [exact Hx| |exact Hs].
    intros j Hj. apply Hf.
    pose proof (lines_ok_le_last a _ Hok y (or_introl eq_refl)). lia.
Qed.

Lemma decode_inv_init : decode_inv (decode_init []).
Proof.
  constructor; unfold decode_init;
    cbn [d_lines d_lastLineStart d_count d_decoded app hd];
    rewrite ?len_new_array by lia.
  - exists []. reflexivity.
  - constructor. lia.
  - reflexivity.
  - exists 0. unfold ITEM_LENGTH. lia.
  - lia.
  - unfold ITEM_LENGTH. lia.
Qed.

(** Closing a line, at a [;] or at the end of the input: the new entry of
    the line table bounds a sorted range. *)
Lemma decode_close_line s :
  decode_inv s ->
  let decoded := maybeSort (d_decoded s) (d_lastLineStart s) (d_count s) in
  lines_ok decoded (d_lines s ++ [d_count s]) /\
  len decoded = len (d_decoded s).
Proof.
  intros [(l & Hl) Hok Hhd (n & Hn & Hc) Hroom Hcap].
  pose proof (lines_ok_le_last _ _ Hok (d_lastLineStart s)) as Hle.
  rewrite Hl in Hle at 1. specialize (Hle ltac:(apply in_or_app; right; left; reflexivity)).
  pose proof (maybeSort_spec (d_decoded s) (d_lastLineStart s) n
                ltac:(lia) Hn ltac:(lia)) as H.
  rewrite <- Hc in H. cbn zeta in H. destruct H as (H1 & H2 & H3).
  cbn zeta. split; [|exact H1].
  rewrite Hl, <- app_assoc. cbn [app].
  apply lines_ok_snoc; [|exists n; auto|exact H3].
  rewrite <- Hl. eapply lines_ok_frame; [exact Hok|].
  intros j Hj. apply H2. rewrite Hl, last_last in Hj. lia.
Qed.

Lemma decode_step_inv encoded s :
  decode_inv s -> decode_inv (decode_step encoded s).
Proof.
  intros Hinv. unfold decode_step.
  assert (Hcomma : decode_inv
    (mkDecode (S (d_pos s)) (d_generatedColumn s) (d_sourcesIndex s)
       (d_sourceLine s) (d_sourceColumn s) (d_namesIndex s) (d_decoded s)
       (d_lastLineStart s) (d_count s) (d_lines s))).
  { destruct Hinv. constructor; assumption. }
  assert (Hsemi : decode_inv
    (mkDecode (S (d_pos s)) 0 (d_sourcesIndex s) (d_sourceLine s)
       (d_sourceColumn s) (d_namesIndex s)
       (maybeSort (d_decoded s) (d_lastLineStart s) (d_count s))
       (d_count s) (d_count s) (d_lines s ++ [d_count s]))).
  { pose proof (decode_close_line s Hinv) as [Hok Hlen].
    destruct Hinv as [(l & Hl) _ Hhd _ Hroom Hcap].
    constructor; cbn [d_lines d_lastLineStart d_count d_decoded].
    - exists (d_lines s). reflexivity.
    - exact Hok.
    - rewrite Hl in *. destruct l; cbn in *; assumption.
    - exists 0. unfold ITEM_LENGTH. lia.
    - rewrite Hlen. exact Hroom.
    - rewrite Hlen. exact Hcap. }
  assert (Hrec : decode_inv (decode_record encoded s)).
  { pose proof Hinv as [(l & Hl) Hok Hhd (n & Hn & Hc) Hroom Hcap].
    pose proof (decode_record_spec encoded s Hcap Hroom) as H.
    cbn zeta in H. destruct H as (_ & H2 & H3 & H4 & [H5 H5'] & H6).
    pose proof (lines_ok_le_last _ _ Hok (d_lastLineStart s)) as Hle.
    rewrite Hl in Hle at 1.
    specialize (Hle ltac:(apply in_or_app; right; left; reflexivity)).
    constructor.
    - exists l. rewrite H2, H3. exact Hl.
    - rewrite H2. eapply lines_ok_frame; [exact Hok|].
      intros j Hj. apply H5'. rewrite Hl, last_last in Hj. unfold ITEM_LENGTH in *. lia.
    - rewrite H2. exact Hhd.
    - exists (n + 1). rewrite H3, H4. unfold ITEM_LENGTH in *. lia.
    - exact H6.
    - lia. }
  destruct (charCodeAt encoded (d_pos s)) as [c|]; [|exact Hrec].
  destruct c as [|c|c]; try exact Hrec.
  do 6 (destruct c as [c|c|]; try exact Hrec; try exact Hcomma; try exact Hsemi).
Qed.

Lemma decode_step_pos encoded s :
  decode_inv s -> (d_pos s < d_pos (decode_step encoded s))%nat.
Proof.
  intros Hinv. unfold decode_step.
  assert (Hrec : (d_pos s < d_pos (decode_record encoded s))%nat).
  { destruct Hinv. apply decode_record_spec; assumption. }
  destruct (charCodeAt encoded (d_pos s)) as [c|]; [|exact Hrec].
  destruct c as [|c|c]; try exact Hrec.
  do 6 (destruct c as [c|c|]; try exact Hrec); cbn [d_pos]; lia.
Qed.

Lemma decode_loop_inv encoded : forall fuel s,
  decode_inv s -> decode_inv (decode_loop fuel encoded s).
Proof.
  induction fuel as [|fuel IH]; intros s Hinv; cbn [decode_loop]; [exact Hinv|].
  destruct (d_pos s <? slen encoded)%nat; [|exact Hinv].
  apply IH. apply decode_step_inv. exact Hinv.
Qed.

(** The fuel of [decode_loop] is never what stops it: the loop is left with
    [pos >= encoded.length], the exit condition of the [for] statement. *)
Lemma decode_loop_done encoded : forall fuel s,
  decode_inv s -> (slen encoded - d_pos s <= fuel)%nat ->
  (slen encoded <= d_pos (decode_loop fuel encoded s))%nat.
Proof.
  induction fuel as [|fuel IH]; intros s Hinv Hf; cbn [decode_loop]; [lia|].
  destruct (Nat.ltb_spec (d_pos s) (slen encoded)); [|assumption].
  pose proof (decode_step_pos encoded s Hinv).
  apply IH; [apply decode_step_inv; exact Hinv|lia].
Qed.

(** ** The line table *)

Lemma decode_step_branch encoded s :
  decode_step encoded s =
  match branch_of (charCodeAt encoded (d_pos s)) with
  | Comma =>
      mkDecode (S (d_pos s)) (d_generatedColumn s) (d_sourcesIndex s)
        (d_sourceLine s) (d_sourceColumn s) (d_namesIndex s) (d_decoded s)
        (d_lastLineStart s) (d_count s) (d_lines s)
  | Semicolon =>
      mkDecode (S (d_pos s)) 0 (d_sourcesIndex s) (d_sourceLine s)
        (d_sourceColumn s) (d_namesIndex s)
        (maybeSort (d_decoded s) (d_lastLineStart s) (d_count s))
        (d_count s) (d_count s) (d_lines s ++ [d_count s])
  | Record_ => decode_record encoded s
  end.
Proof.
  unfold decode_step, branch_of.
  destruct (charCodeAt encoded (d_pos s)) as [c|]; [|reflexivity].
  destruct c as [|c|c]; try reflexivity.
  do 6 (destruct c as [c|c|]; try reflexivity).
Qed.

Lemma decode_loop_lines encoded : forall fuel s current,
  decode_inv s ->
  d_count s = d_lastLineStart s + ITEM_LENGTH * Z.of_nat current ->
  let s' := decode_loop fuel encoded s in
  d_lines s' ++ [d_count s'] =
  d_lines s ++
    offsets (d_lastLineStart s) (line_record_counts_loop fuel encoded s current).
Proof.
  induction fuel as [|fuel IH]; intros s current Hinv Hc; cbn zeta;
    cbn [decode_loop line_record_counts_loop].
  - cbn [offsets]. rewrite Hc. reflexivity.
  - destruct (d_pos s <? slen encoded)%nat;
      [|cbn [offsets]; rewrite Hc; reflexivity].
    pose proof (decode_step_inv encoded s Hinv) as Hinv'.
    specialize (IH (decode_step encoded s)). cbn zeta in IH.
    revert Hinv' IH. rewrite decode_step_branch.
    destruct (branch_of (charCodeAt encoded (d_pos s))); intros Hinv' IH.
    + rewrite (IH current Hinv' Hc). reflexivity.
    + rewrite (IH 0%nat Hinv'); cbn [d_lines d_lastLineStart d_count].
      * cbn [offsets]. rewrite <- Hc, <- app_assoc. reflexivity.
      * unfold ITEM_LENGTH. lia.
    + destruct Hinv as [_ _ _ _ Hroom Hcap].
      pose proof (decode_record_spec encoded s Hcap Hroom) as H.
      cbn zeta in H. destruct H as (_ & H2 & H3 & H4 & _).
      rewrite (IH (S current) Hinv'); rewrite ?H2, ?H3, ?H4; [reflexivity|].
      unfold ITEM_LENGTH in *. lia.
Qed.

Lemma offsets_length start counts :
  List.length (offsets start counts) = List.length counts.
Proof.
  revert start. induction counts as [|c counts IH]; intros start; cbn [offsets List.length];
    [reflexivity|]. rewrite IH. reflexivity.
Qed.

Lemma offsets_nth counts : forall start i,
  (i < List.length counts)%nat ->
  nth (S i) (start :: offsets start counts) 0 =
  nth i (start :: offsets start counts) 0 + ITEM_LENGTH * Z.of_nat (nth i counts 0%nat).
Proof.
  induction counts as [|c counts IH]; intros start i Hi; cbn [List.length] in Hi; [lia|].
  destruct i as [|i].
  - reflexivity.
  - cbn [offsets].
    change (nth (S (S i)) (start :: ?x :: ?l) 0) with (nth (S i) (x :: l) 0).
    change (nth (S i) (start :: ?x :: ?l) 0) with (nth i (x :: l) 0).
    change (nth (S i) (c :: counts) 0%nat) with (nth i counts 0%nat).
    apply IH. lia.
Qed.

(** ** The decoded map *)

Lemma decode_spec encoded :
  let s := decode_run encoded [] in
  (slen encoded <= d_pos s)%nat /\
  snd (decode encoded []) = d_lines s ++ [d_count s] /\
  len (fst (decode encoded [])) = d_count s /\
  lines_ok (fst (decode encoded [])) (snd (decode encoded [])) /\
  hd 0 (snd (decode encoded [])) = 0.
Proof.
  cbn zeta. unfold decode. cbn [fst snd].
  pose proof (decode_loop_inv encoded (slen encoded) _ decode_inv_init) as Hinv.
  pose proof (decode_loop_done encoded (slen encoded) _ decode_inv_init
                ltac:(cbn; lia)) as Hdone.
  fold (decode_run encoded []) in *.
  set (s := decode_run encoded []) in *.
  pose proof (decode_close_line s Hinv) as [Hok Hlen].
  pose proof Hinv as [(l & Hl) Hok0 Hhd (n & Hn & Hc) Hroom Hcap].
  pose proof (lines_ok_le_last _ _ Hok0 (d_lastLineStart s)) as Hle.
  rewrite Hl in Hle at 1.
  specialize (Hle ltac:(apply in_or_app; right; left; reflexivity)).
  assert (H0 : 0 <= d_count s) by (unfold ITEM_LENGTH in *; lia).
  split; [exact Hdone|]. split; [reflexivity|]. split; [|split].
  - rewrite len_slice; lia.
  - eapply lines_ok_frame; [exact Hok|].
    intros j Hj. rewrite last_last in Hj.
    rewrite aget_slice by lia. reflexivity.
  - rewrite Hl in *. destruct l; cbn in *; assumption.
Qed.

Lemma new_map_fields encoded :
  _mappings (new_EncodedSourceMapImpl encoded) = fst (decode encoded []) /\
  _lineIndices (new_EncodedSourceMapImpl encoded) = snd (decode encoded []) /\
  _lastIndex (new_EncodedSourceMapImpl encoded) = 0 /\
  _lastLine (new_EncodedSourceMapImpl encoded) = 0%nat /\
  _lastColumn (new_EncodedSourceMapImpl encoded) = 0.
Proof.
  unfold new_EncodedSourceMapImpl. destruct (decode encoded []). cbn. auto.
Qed.

Lemma new_map_ok encoded : map_ok (new_EncodedSourceMapImpl encoded).
Proof.
  destruct (new_map_fields encoded) as (Hm & Hl & _).
  pose proof (decode_spec encoded) as H. cbn zeta in H.
  destruct H as (_ & H1 & H2 & H3 & H4).
  constructor; rewrite ?Hm, ?Hl; trivial.
  - rewrite H1, last_last. symmetry. exact H2.
  - rewrite H1, length_app. cbn [List.length].
    destruct (decode_loop_inv encoded (slen encoded) _ decode_inv_init)
      as [(l & Hl') _ _ _ _ _].
    unfold decode_run. rewrite Hl', length_app. cbn [List.length]. lia.
Qed.

Lemma aget_nth (l : list Z) (i : nat) : aget l (Z.of_nat i) = nth i l 0.
Proof.
  unfold aget. destruct (Z.ltb_spec (Z.of_nat i) 0); [lia|].
  rewrite Nat2Z.id. reflexivity.
Qed.

Lemma lines_ok_nth a l :
  lines_ok a l ->
  forall i, (S i < List.length l)%nat ->
  0 <= nth i l 0 /\
  (exists n, 0 <= n /\ nth (S i) l 0 = nth i l 0 + ITEM_LENGTH * n) /\
  line_sorted a (nth i l 0) (nth (S i) l 0) /\
  nth (S i) l 0 <= last l 0.
Proof.
  induction 1 as [x Hx|x y l Hx Hn Hs Hok IH]; intros i Hi; cbn [List.length] in Hi;
    [lia|].
  change (last (x :: y :: l) 0) with (last (y :: l) 0).
  destruct i as [|i].
  - cbn [nth]. repeat split; trivial.
    apply (lines_ok_le_last a _ Hok). left. reflexivity.
  - change (nth (S i) (x :: y :: l) 0) with (nth i (y :: l) 0).
    change (nth (S (S i)) (x :: y :: l) 0) with (nth (S i) (y :: l) 0).
    apply IH. cbn [List.length]. lia.
Qed.

(** ** The binary search *)

Lemma line_sorted_le a x y :
  line_sorted a x y ->
  forall d i, 0 <= i -> x + ITEM_LENGTH * (i + Z.of_nat d) < y ->
  aget a (x + ITEM_LENGTH * i) <= aget a (x + ITEM_LENGTH * (i + Z.of_nat d)).
Proof.
  intros Hs. unfold ITEM_LENGTH in *.
  induction d as [|d IH]; intros i Hi Hlt.
  - replace (i + Z.of_nat 0) with i by lia. lia.
  - specialize (IH i Hi ltac:(lia)).
    specialize (Hs (i + Z.of_nat d) ltac:(lia)).
    replace (i + Z.of_nat d + 1) with (i + Z.of_nat (S d)) in Hs by lia.
    specialize (Hs Hlt). eapply Z.le_trans; [exact IH|exact Hs].
Qed.

Section BinarySearch.
Variables (h : Uint32Array) (needle base n : Z).
Hypothesis Hsorted : line_sorted h base (base + ITEM_LENGTH * n).

Lemma range_sorted i j :
  0 <= i <= j -> j < n ->
  aget h (base + ITEM_LENGTH * i) <= aget h (base + ITEM_LENGTH * j).
Proof.
  intros Hij Hj.
  pose proof (line_sorted_le h _ _ Hsorted (Z.to_nat (j - i)) i) as H.
  replace (i + Z.of_nat (Z.to_nat (j - i))) with j in H by lia.
  apply H; unfold ITEM_LENGTH; lia.
Qed.

(** The loop ends on the insertion point of [needle]: the boundary
    between the records up to [needle] and the records above it. *)
Lemma binarySearch_loop_spec : forall fuel a b,
  0 <= a <= b -> b <= n -> (Z.to_nat (b - a) <= fuel)%nat ->
  exists c,
    binarySearch_loop fuel h needle searchComparator
      (base + ITEM_LENGTH * a) (base + ITEM_LENGTH * b - 1) ITEM_LENGTH
    = base + ITEM_LENGTH * c /\
    a <= c <= b /\
    (a < c -> aget h (base + ITEM_LENGTH * (c - 1)) <= needle) /\
    (c < b -> needle < aget h (base + ITEM_LENGTH * c)).
Proof.
  induction fuel as [|fuel IH]; intros a b Hab Hbn Hf.
  - exists a. cbn [binarySearch_loop]. unfold ITEM_LENGTH. repeat split; lia.
  - cbn [binarySearch_loop]. unfold ITEM_LENGTH in *.
    destruct (Z.leb_spec (base + 5 * a) (base + 5 * b - 1)) as [Hlt|Hge].
    2:{ exists a. repeat split; lia. }
    assert (Hq : (base + 5 * b - 1 - (base + 5 * a)) / 5 = b - a - 1).
    { symmetry. apply (Z.div_unique _ _ _ 4); lia. }
    rewrite Hq.
    set (m := (b - a - 1) / 2).
    assert (Hm : 0 <= m /\ a + m < b).
    { unfold m. split; [apply Z.div_pos; lia|].
      assert ((b - a - 1) / 2 <= b - a - 1) by (apply Z.div_le_upper_bound; lia).
      lia. }
    replace (base + 5 * a + 5 * m) with (base + 5 * (a + m)) by lia.
    unfold searchComparator at 1.
    destruct (Z.leb_spec (aget h (base + 5 * (a + m)) - needle) 0) as [Hle|Hgt].
    + replace (base + 5 * (a + m) + 5) with (base + 5 * (a + m + 1)) by lia.
      destruct (IH (a + m + 1) b ltac:(lia) Hbn ltac:(lia)) as (c & Hc & Hr & Hlo & Hhi).
      exists c. split; [exact Hc|]. split; [lia|]. split; [|exact Hhi].
      intros _. destruct (Z.eq_dec c (a + m + 1)) as [->|Hne].
      * replace (a + m + 1 - 1) with (a + m) by lia. lia.
      * apply Hlo. lia.
    + destruct (IH a (a + m) ltac:(lia) ltac:(lia) ltac:(lia)) as (c & Hc & Hr & Hlo & Hhi).
      exists c. split; [exact Hc|]. split; [lia|]. split; [exact Hlo|].
      intros _. destruct (Z.eq_dec c (a + m)) as [->|Hne].
      * lia.
      * apply Hhi. lia.
Qed.

(** A search of the records [a .. n-1] of the range: the answer is the
    rightmost record whose column is at most [needle], or -1 when the
    record [a] is already above [needle]. *)
Lemma binarySearch_spec a :
  0 <= base -> 0 <= a <= n ->
  let r := binarySearch h needle searchComparator
             (base + ITEM_LENGTH * a) (base + ITEM_LENGTH * n - 1) ITEM_LENGTH in
  (r = -1 /\ (a < n -> needle < aget h (base + ITEM_LENGTH * a))) \/
  (exists c, a <= c < n /\ r = base + ITEM_LENGTH * c /\
             aget h (base + ITEM_LENGTH * c) <= needle /\
             (c + 1 < n -> needle < aget h (base + ITEM_LENGTH * (c + 1)))).
Proof.
  intros Hb Ha. unfold binarySearch.
  destruct (binarySearch_loop_spec
              (Z.to_nat (base + ITEM_LENGTH * n - 1 - (base + ITEM_LENGTH * a) + 1))
              a n Ha ltac:(lia) ltac:(unfold ITEM_LENGTH; lia))
    as (c & Hc & Hr & Hlo & Hhi).
  rewrite Hc. cbn zeta. unfold ITEM_LENGTH in *.
  destruct (Z.ltb_spec (base + 5 * c - 5) (base + 5 * a)) as [Hlt|Hge].
  - left. split; [reflexivity|]. intros Han.
    replace a with c by lia. apply Hhi. lia.
  - right. exists (c - 1). split; [lia|]. split; [lia|]. split.
    + apply Hlo. lia.
    + replace (c - 1 + 1) with c by lia. intros H. apply Hhi. lia.
Qed.

(** A search that starts at a record whose column is at most [needle]
    finds what the search of the whole range finds. *)
Lemma binarySearch_scoped a :
  0 <= base -> 0 <= a < n -> aget h (base + ITEM_LENGTH * a) <= needle ->
  binarySearch h needle searchComparator
    (base + ITEM_LENGTH * a) (base + ITEM_LENGTH * n - 1) ITEM_LENGTH =
  binarySearch h needle searchComparator
    base (base + ITEM_LENGTH * n - 1) ITEM_LENGTH.
Proof.
  intros Hb Ha Hle.
  pose proof (binarySearch_spec a Hb ltac:(lia)) as H1.
  pose proof (binarySearch_spec 0 Hb ltac:(lia)) as H2.
  cbn zeta in H1, H2.
  assert (Hbase : base + ITEM_LENGTH * 0 = base) by (unfold ITEM_LENGTH; lia).
  pose proof (range_sorted 0 a ltac:(lia) ltac:(lia)) as H0a.
  rewrite Hbase in H2, H0a.
  destruct H1 as [[_ H1]|(c1 & Hc1 & -> & Hlo1 & Hhi1)]; [specialize (H1 ltac:(lia)); lia|].
  destruct H2 as [[_ H2]|(c2 & Hc2 & -> & Hlo2 & Hhi2)].
  - specialize (H2 ltac:(lia)). lia.
  - f_equal. f_equal.
    destruct (Z.lt_trichotomy c1 c2) as [Hlt|[Heq|Hgt]]; [|exact Heq|].
    + specialize (Hhi1 ltac:(lia)).
      pose proof (range_sorted (c1 + 1) c2 ltac:(lia) ltac:(lia)). lia.
    + specialize (Hhi2 ltac:(lia)).
      pose proof (range_sorted (c2 + 1) c1 ltac:(lia) ltac:(lia)). lia.
Qed.
End BinarySearch.

(** ** The query engine *)

Lemma known_line_guard this line :
  (len (_lineIndices this) - 1 <=? Z.of_nat line) = false <-> known_line this line.
Proof.
  unfold known_line, len.
  destruct (Z.leb_spec (Z.of_nat (List.length (_lineIndices this)) - 1) (Z.of_nat line));
    split; intros; try discriminate; try reflexivity; lia.
Qed.

Lemma known_line_range this line :
  map_ok this -> known_line this line ->
  0 <= line_start this line /\
  (exists n, 0 <= n /\ line_end this line = line_start this line + ITEM_LENGTH * n) /\
  line_sorted (_mappings this) (line_start this line) (line_end this line) /\
  line_end this line <= len (_mappings this).
Proof.
  intros [Hok _ Hlast _] Hk. rewrite <- Hlast.
  apply (lines_ok_nth _ _ Hok line Hk).
Qed.

(** A record of a known line lies inside the buffer, so [segmentify] reads
    inside it. *)
Lemma record_of_line_inside this line idx :
  map_ok this -> known_line this line -> record_of_line this line idx ->
  0 <= idx /\ idx + ITEM_LENGTH <= len (_mappings this).
Proof.
  intros Hmap Hk (k & Hk0 & -> & Hlt).
  destruct (known_line_range this line Hmap Hk) as (Hx & (n & Hn & Hy) & _ & Hfit).
  unfold ITEM_LENGTH in *. lia.
Qed.

Lemma new_cursor_ok encoded : cursor_ok (new_EncodedSourceMapImpl encoded).
Proof.
  destruct (new_map_fields encoded) as (_ & _ & Hi & Hl & _).
  pose proof (new_map_ok encoded) as [_ Hhd _ _].
  intros _. left. rewrite Hi, Hl. unfold line_start.
  destruct (_lineIndices (new_EncodedSourceMapImpl encoded)); cbn in *; lia.
Qed.

(** What the search from scratch answers. *)
Lemma traceSegment_scratch_spec this line column :
  map_ok this ->
  match traceSegment_scratch this line column with
  | Some seg =>
      known_line this line /\
      exists idx,
        record_of_line this line idx /\
        seg = segmentify (_mappings this) idx /\
        aget (_mappings this) idx <= column /\
        forall j, record_of_line this line j ->
                  aget (_mappings this) j <= column ->
                  j <= idx /\ aget (_mappings this) j <= aget (_mappings this) idx
  | None =>
      ~ known_line this line \/
      forall j, record_of_line this line j -> column < aget (_mappings this) j
  end.
Proof.
  intros Hmap. unfold traceSegment_scratch.
  destruct (len (_lineIndices this) - 1 <=? Z.of_nat line) eqn:Eg.
  { left. intros Hk. apply known_line_guard in Hk. congruence. }
  apply known_line_guard in Eg.
  destruct (known_line_range this line Hmap Eg) as (Hx & (n & Hn & Hy) & Hs & Hfit).
  replace (Z.of_nat line + 1) with (Z.of_nat (S line)) by lia.
  rewrite !aget_nth. fold (line_start this line) (line_end this line).
  rewrite Hy in Hs |- *.
  pose proof (binarySearch_spec (_mappings this) column (line_start this line) n 0
                Hx ltac:(lia)) as H.
  cbn zeta in H.
  replace (line_start this line + ITEM_LENGTH * 0) with (line_start this line) in H
    by (unfold ITEM_LENGTH; lia).
  set (r := binarySearch _ _ _ _ _ _) in *.
  destruct H as [[Hr Hhi]|(c & Hc & Hr & Hle & Hhi)].
  - rewrite Hr. cbn. right. intros j (k & Hk & -> & Hlt).
    pose proof (range_sorted _ _ _ Hs 0 k ltac:(lia) ltac:(unfold ITEM_LENGTH in *; lia)) as H0k.
    replace (line_start this line + ITEM_LENGTH * 0) with (line_start this line) in H0k
      by (unfold ITEM_LENGTH; lia).
    specialize (Hhi ltac:(unfold ITEM_LENGTH in *; lia)). lia.
  - destruct (Z.ltb_spec r 0) as [Hneg|_]; [unfold ITEM_LENGTH in *; lia|].
    split; [exact Eg|]. exists r. split; [|split; [reflexivity|split]].
    + exists c. unfold ITEM_LENGTH in *. repeat split; lia.
    + rewrite Hr. exact Hle.
    + intros j (k & Hk & -> & Hlt) Hj.
      assert (Hkc : k <= c).
      { destruct (Z.le_gt_cases k c) as [|Hgt]; [assumption|].
        specialize (Hhi ltac:(unfold ITEM_LENGTH in *; lia)).
        pose proof (range_sorted _ _ _ Hs (c + 1) k ltac:(lia)
                      ltac:(unfold ITEM_LENGTH in *; lia)). lia. }
      split; [unfold ITEM_LENGTH in *; lia|].
      rewrite Hr. apply (range_sorted _ _ _ Hs); lia.
Qed.

(** One query: with a harmless cursor the memoised search answers what the
    search from scratch answers, the cursor records the query and stays
    harmless. *)
Lemma traceSegment_memo this line column :
  map_ok this -> cursor_ok this ->
  let this' := snd (traceSegment this line column) in
  fst (traceSegment this line column) = traceSegment_scratch this line column /\
  _mappings this' = _mappings this /\
  _lineIndices this' = _lineIndices this /\
  _encoded this' = _encoded this /\
  cursor_ok this' /\
  (known_line this line ->
   _lastLine this' = line /\ _lastColumn this' = column /\
   _lastIndex this' = scratch_index this line column) /\
  (~ known_line this line -> this' = this).
Proof.
  intros Hmap Hcur. unfold traceSegment, traceSegment_scratch.
  destruct (len (_lineIndices this) - 1 <=? Z.of_nat line) eqn:Eg.
  { cbn [fst snd]. split; [reflexivity|]. do 3 (split; [reflexivity|]).
    split; [exact Hcur|]. split; [|reflexivity].
    intros Hk. apply known_line_guard in Hk. congruence. }
  apply known_line_guard in Eg.
  destruct (known_line_range this line Hmap Eg) as (Hx & (n & Hn & Hy) & Hs & Hfit).
  unfold memoizedBinarySearch, scratch_index.
  replace (Z.of_nat line + 1) with (Z.of_nat (S line)) by lia.
  rewrite !aget_nth. fold (line_start this line) (line_end this line).
  set (low := if (line =? _lastLine this)%nat && (_lastColumn this <=? column)
              then Z.max (line_start this line) (_lastIndex this)
              else line_start this line).
  assert (Hlow : binarySearch (_mappings this) column searchComparator low
                   (line_end this line - 1) ITEM_LENGTH =
                 binarySearch (_mappings this) column searchComparator
                   (line_start this line) (line_end this line - 1) ITEM_LENGTH).
  { unfold low.
    destruct (Nat.eqb_spec line (_lastLine this)) as [He|]; [|reflexivity].
    destruct (Z.leb_spec (_lastColumn this) column) as [Hcol|]; [|reflexivity].
    cbn [andb]. subst line.
    destruct (Hcur Eg) as [Hle|[(k & Hk & Hidx & Hlt) Hval]].
    - rewrite Z.max_l by lia. reflexivity.
    - rewrite Z.max_r by (unfold ITEM_LENGTH in *; lia).
      rewrite Hidx, Hy. rewrite Hy in Hs.
      apply binarySearch_scoped; trivial.
      + unfold ITEM_LENGTH in *. lia.
      + rewrite <- Hidx. lia. }
  rewrite Hlow.
  set (r := binarySearch _ _ _ (line_start this line) _ _) in *.
  assert (Hcur' : cursor_ok (mkMap r line column (_lineIndices this) (_encoded this)
                               (_mappings this))).
  { intros _. cbn [_lastLine _lastIndex _lastColumn _mappings].
    unfold record_of_line, line_start, line_end. cbn [_lineIndices].
    fold (line_start this line) (line_end this line).
    rewrite Hy in Hs.
    pose proof (binarySearch_spec (_mappings this) column (line_start this line) n 0
                  Hx ltac:(lia)) as H.
    cbn zeta in H.
    replace (line_start this line + ITEM_LENGTH * 0) with (line_start this line) in H
      by (unfold ITEM_LENGTH; lia).
    rewrite <- Hy in H. fold r in H.
    destruct H as [[Hr _]|(c & Hc & Hr & Hle & _)].
    - left. lia.
    - right. split; [|rewrite Hr; exact Hle].
      exists c. unfold ITEM_LENGTH in *. repeat split; lia. }
  cbn beta iota zeta.
  destruct (r <? 0); cbn [fst snd _mappings _lineIndices _encoded _lastLine
                            _lastColumn _lastIndex];
    (repeat split; trivial; intros Hk; contradiction).
Qed.

Lemma traceSegment_map_ok this line column :
  map_ok this -> cursor_ok this ->
  map_ok (snd (traceSegment this line column)).
Proof.
  intros Hmap Hcur.
  destruct (traceSegment_memo this line column Hmap Hcur) as (_ & Hm & Hl & _).
  destruct Hmap. constructor; rewrite ?Hm, ?Hl; assumption.
Qed.

Lemma traceSegment_scratch_ext this this' line column :
  _mappings this' = _mappings this -> _lineIndices this' = _lineIndices this ->
  traceSegment_scratch this' line column = traceSegment_scratch this line column.
Proof. intros Hm Hl. unfold traceSegment_scratch. rewrite Hm, Hl. reflexivity. Qed.

(** Any sequence of queries: the map object stays well formed and its
    results are the ones of the search from scratch. *)
Lemma traceSegments_memo : forall queries this,
  map_ok this -> cursor_ok this ->
  let this' := snd (traceSegments this queries) in
  fst (traceSegments this queries) =
    map (fun q => traceSegment_scratch this (fst q) (snd q)) queries /\
  _mappings this' = _mappings this /\
  _lineIndices this' = _lineIndices this /\
  map_ok this' /\ cursor_ok this'.
Proof.
  induction queries as [|[line column] queries IH]; intros this Hmap Hcur.
  - cbn. auto.
  - cbn [traceSegments map fst snd].
    pose proof (traceSegment_memo this line column Hmap Hcur) as H.
    pose proof (traceSegment_map_ok this line column Hmap Hcur) as Hmap1.
    cbn zeta in H. destruct H as (Hr & Hm & Hl & _ & Hcur1 & _).
    destruct (traceSegment this line column) as [r this1]. cbn [fst snd] in *.
    specialize (IH this1 Hmap1 Hcur1). cbn zeta in IH.
    destruct IH as (IHr & IHm & IHl & IHmap & IHcur).
    destruct (traceSegments this1 queries) as [rs this2]. cbn [fst snd] in *.
    split; [|split; [congruence|split; [congruence|split; assumption]]].
    rewrite Hr, IHr. f_equal.
    apply map_ext. intros q. apply traceSegment_scratch_ext; assumption.
Qed.

(** ** The VLQ decoder *)

Lemma ToInt32_small z : - 2 ^ 31 <= z < 2 ^ 31 -> ToInt32 z = z.
Proof. intros H. unfold ToInt32. rewrite Z.mod_small; lia. Qed.

Lemma ToInt32_mod z : ToInt32 (z mod 2 ^ 32) = ToInt32 z.
Proof. unfold ToInt32. rewrite Zplus_mod_idemp_l. reflexivity. Qed.

Lemma ToUint32_ToInt32 z : ToUint32 (ToInt32 z) = ToUint32 z.
Proof.
  unfold ToUint32, ToInt32. rewrite Zminus_mod_idemp_l. f_equal. lia.
Qed.

Lemma lor_shifted v q s :
  0 <= s -> 0 <= v < 2 ^ s -> Z.lor v (q * 2 ^ s) = v + q * 2 ^ s.
Proof.
  intros Hs Hv.
  assert (Hland : Z.land v (q * 2 ^ s) = 0).
  { apply Z.bits_inj'. intros i Hi. rewrite Z.land_spec, Z.bits_0.
    destruct (Z.lt_ge_cases i s).
    - rewrite Z.mul_pow2_bits_low by lia. apply andb_false_r.
    - rewrite <- (Z.mod_small v (2 ^ s)) by lia.
      rewrite Z.mod_pow2_bits_high by lia. reflexivity. }
  rewrite <- Z.lxor_lor, <- Z.add_nocarry_lxor by exact Hland. reflexivity.
Qed.

Lemma or32_shl32 v x s :
  0 <= s <= 30 -> 0 <= v < 2 ^ s -> 0 <= x < 32 ->
  or32 v (shl32 x s) = ToInt32 (v + x * 2 ^ s).
Proof.
  intros Hs Hv Hx. unfold or32, shl32.
  rewrite (Z.mod_small s 32) by lia. rewrite Z.shiftl_mul_pow2 by lia.
  assert (Hp : 2 ^ s <= 2 ^ 30) by (apply Z.pow_le_mono_r; lia).
  rewrite (ToInt32_small v) by lia.
  rewrite <- (ToInt32_mod (Z.lor _ _)), <- (ToInt32_mod (v + _)). f_equal.
  rewrite <- (Z.land_ones (Z.lor _ _)) by lia.
  rewrite Z.land_lor_distr_l. rewrite !Z.land_ones by lia.
  fold (ToUint32 (ToInt32 (ToInt32 (x * 2 ^ s)))). rewrite !ToUint32_ToInt32.
  unfold ToUint32. rewrite (Z.mod_small v) by lia.
  assert (H32 : 2 ^ 32 = 2 ^ (32 - s) * 2 ^ s).
  { rewrite <- Z.pow_add_r by lia. f_equal. lia. }
  assert (Hq : 0 < 2 ^ (32 - s)) by (apply Z.pow_pos_nonneg; lia).
  assert (Hs0 : 0 < 2 ^ s) by (apply Z.pow_pos_nonneg; lia).
  rewrite H32.
  rewrite Z.mul_mod_distr_r by lia.
  rewrite lor_shifted by lia.
  rewrite <- Z.add_mod_idemp_r by lia. rewrite Z.mul_mod_distr_r by lia.
  symmetry. apply Z.mod_small.
  pose proof (Z.mod_pos_bound x (2 ^ (32 - s)) Hq). nia.
Qed.

Lemma or32_negate u :
  0 <= u < 2 ^ 31 ->
  or32 (- 0x80000000) (- u) = if u =? 0 then - 2 ^ 31 else - u.
Proof.
  intros Hu. unfold or32.
  change (ToInt32 (- 0x80000000)) with (- 2 ^ 31).
  rewrite (ToInt32_small (- u)) by lia.
  destruct (Z.eqb_spec u 0) as [->|Hne].
  - reflexivity.
  - assert (Hlor : Z.lor (- 2 ^ 31) (- u) = - u).
    { apply Z.bits_inj'. intros i Hi. rewrite Z.lor_spec.
      destruct (Z.lt_ge_cases i 31).
      - replace (- 2 ^ 31) with (-1 * 2 ^ 31) by lia.
        rewrite Z.mul_pow2_bits_low by lia. reflexivity.
      - rewrite (Z.bits_above_log2_neg (- u)); [apply orb_true_r|lia|].
        destruct (Z.eq_dec (Z.pred (- - u)) 0) as [->|Hp]; [cbn; lia|].
        apply Z.log2_lt_pow2; [lia|].
        apply Z.lt_le_trans with (2 ^ 31); [lia|].
        apply Z.pow_le_mono_r; lia. }
    rewrite Hlor. apply ToInt32_small. lia.
Qed.

Lemma charCodeAt_outside s : forall pos, (slen s <= pos)%nat -> charCodeAt s pos = None.
Proof.
  unfold charCodeAt, slen.
  induction s as [|c s IH]; intros pos H; cbn [String.length] in H.
  - destruct pos; reflexivity.
  - destruct pos as [|pos]; [lia|]. cbn [String.get]. apply IH. lia.
Qed.

Lemma continuation_inside encoded pos :
  Z.land (digit_at encoded pos) 32 <> 0 -> (pos < slen encoded)%nat.
Proof.
  intros H. destruct (Nat.lt_ge_cases pos (slen encoded)) as [|Hge]; [assumption|].
  unfold digit_at in H. rewrite charCodeAt_outside in H by assumption.
  cbn in H. congruence.
Qed.

Lemma land_31_bound d : 0 <= Z.land d 31 < 32.
Proof.
  change 31 with (Z.ones 5). rewrite Z.land_ones by lia.
  apply Z.mod_pos_bound. lia.
Qed.

(** The loop over a digit sequence that fits 35 bits: the groups are
    assembled without overlap, and the sum is kept modulo 2^32. *)
Lemma decodeInteger_loop_digits encoded : forall ds fuel pos k v,
  vlq_digits encoded pos ds ->
  (List.length ds <= S fuel)%nat ->
  0 <= k -> k + len ds <= 7 -> 0 <= v < 2 ^ (5 * k) ->
  decodeInteger_loop fuel encoded pos v (5 * k) =
  (ToInt32 (v + 2 ^ (5 * k) * vlq_reassemble ds), (pos + List.length ds)%nat).
Proof.
  induction ds as [|d ds IH]; intros fuel pos k v Hds Hfuel Hk Hlen Hv;
    [destruct Hds|].
  assert (Hl : len (d :: ds) = len ds + 1) by (unfold len; cbn [List.length]; lia).
  pose proof (len_nonneg ds) as Hnn.
  pose proof (land_31_bound d) as Hd.
  destruct Hds as [Hdig Hrest].
  assert (Hstep : or32 v (shl32 (Z.land d 31) (5 * k)) =
                  ToInt32 (v + Z.land d 31 * 2 ^ (5 * k)))
    by (apply or32_shl32; lia).
  assert (Hloop : forall f, decodeInteger_loop f encoded pos v (5 * k) =
            if Z.land d 32 =? 0
            then (ToInt32 (v + Z.land d 31 * 2 ^ (5 * k)), S pos)
            else match f with
                 | O => (ToInt32 (v + Z.land d 31 * 2 ^ (5 * k)), S pos)
                 | S f' => decodeInteger_loop f' encoded (S pos)
                             (ToInt32 (v + Z.land d 31 * 2 ^ (5 * k))) (5 * k + 5)
                 end).
  { intros f. destruct f; cbn [decodeInteger_loop];
      fold (digit_at encoded pos); rewrite Hdig, Hstep; reflexivity. }
  rewrite Hloop.
  destruct ds as [|d' ds].
  - rewrite Hrest. cbn [Z.eqb vlq_reassemble List.length].
    f_equal; [|lia]. f_equal. lia.
  - destruct Hrest as [Hcont Hrest].
    destruct (Z.eqb_spec (Z.land d 32) 0); [contradiction|].
    destruct fuel as [|fuel]; [cbn [List.length] in Hfuel; lia|].
    assert (Hl' : len (d' :: ds) = len ds + 1) by (unfold len; cbn [List.length]; lia).
    pose proof (len_nonneg ds).
    assert (Hpow : 2 ^ (5 * (k + 1)) = 32 * 2 ^ (5 * k)).
    { replace (5 * (k + 1)) with (5 + 5 * k) by lia.
      rewrite Z.pow_add_r by lia. reflexivity. }
    assert (Hle : 2 ^ (5 * (k + 1)) <= 2 ^ 30) by (apply Z.pow_le_mono_r; lia).
    assert (Hsum : 0 <= v + Z.land d 31 * 2 ^ (5 * k) < 2 ^ (5 * (k + 1))) by nia.
    rewrite ToInt32_small by lia.
    replace (5 * k + 5) with (5 * (k + 1)) by lia.
    rewrite IH; trivial; try lia.
    + f_equal; [|cbn [List.length]; lia].
      f_equal. rewrite Hpow. cbn [vlq_reassemble]. lia.
    + cbn [List.length] in *. lia.
Qed.

(** ** Fuel *)

(** The loops of the embedding take fuel; these lemmas show that the fuel the
    definitions pass is never what ends a loop: more fuel gives the same
    result. *)

Lemma decodeInteger_loop_fuel encoded : forall fuel1 fuel2 pos value shift,
  (slen encoded - pos <= fuel1)%nat -> (slen encoded - pos <= fuel2)%nat ->
  decodeInteger_loop fuel1 encoded pos value shift =
  decodeInteger_loop fuel2 encoded pos value shift.
Proof.
  induction fuel1 as [|fuel1 IH]; intros fuel2 pos value shift H1 H2.
  - assert (Hc : charCodeAt encoded pos = None)
      by (apply charCodeAt_outside; lia).
    destruct fuel2; cbn [decodeInteger_loop]; rewrite Hc; reflexivity.
  - destruct fuel2 as [|fuel2].
    + assert (Hc : charCodeAt encoded pos = None)
        by (apply charCodeAt_outside; lia).
      cbn [decodeInteger_loop]. rewrite Hc. reflexivity.
    + cbn [decodeInteger_loop].
      destruct (Z.land (base64Index_at (charCodeAt encoded pos)) 32 =? 0);
        [reflexivity|].
      apply IH; lia.
Qed.

Lemma isSorted_loop_complete state end_ : forall fuel i,
  (forall k, 0 <= k -> i + ITEM_LENGTH * k < end_ ->
     aget state (i + ITEM_LENGTH * k - ITEM_LENGTH) <= aget state (i + ITEM_LENGTH * k)) ->
  isSorted_loop fuel state i end_ = true.
Proof.
  unfold ITEM_LENGTH.
  induction fuel as [|fuel IH]; intros i H; cbn [isSorted_loop]; [reflexivity|].
  unfold ITEM_LENGTH.
  destruct (Z.ltb_spec i end_) as [Hi|Hi]; [|reflexivity].
  pose proof (H 0 ltac:(lia) ltac:(lia)) as H0.
  rewrite Z.mul_0_r, Z.add_0_r in H0.
  destruct (Z.ltb_spec (aget state i) (aget state (i - 5))); [lia|].
  apply IH. intros k Hk Hlt.
  replace (i + 5 + 5 * k) with (i + 5 * (k + 1)) by lia.
  apply H; lia.
Qed.

(** [isSorted] is exactly the test that the records of the range are in
    order. *)
Lemma isSorted_iff state start end_ :
  isSorted state start end_ = true <-> line_sorted state start end_.
Proof.
  split; [apply isSorted_sound|].
  intros Hs. unfold isSorted. apply isSorted_loop_complete.
  intros k Hk Hlt. unfold line_sorted, ITEM_LENGTH in *.
  specialize (Hs k Hk ltac:(lia)).
  replace (start + 5 + 5 * k - 5) with (start + 5 * k) by lia.
  replace (start + 5 + 5 * k) with (start + 5 * (k + 1)) by lia.
  exact Hs.
Qed.

Lemma decodedMappings_while_fuel lineIndices i : forall fuel1 fuel2 s,
  dm_lineIndex s = nth_error lineIndices (dm_lineIndicesIndex s) ->
  (List.length lineIndices - dm_lineIndicesIndex s < fuel1)%nat ->
  (List.length lineIndices - dm_lineIndicesIndex s < fuel2)%nat ->
  decodedMappings_while fuel1 lineIndices i s =
  decodedMappings_while fuel2 lineIndices i s /\
  dm_lineIndex (decodedMappings_while fuel1 lineIndices i s) =
  nth_error lineIndices (dm_lineIndicesIndex (decodedMappings_while fuel1 lineIndices i s)).
Proof.
  induction fuel1 as [|fuel1 IH]; intros fuel2 s Hs H1 H2; [lia|].
  destruct fuel2 as [|fuel2]; [lia|].
  cbn [decodedMappings_while].
  destruct (dm_lineIndex s) as [lineIndex|] eqn:E; [|split; [reflexivity|congruence]].
  destruct (i =? lineIndex); [|split; [reflexivity|congruence]].
  assert (Hin : (dm_lineIndicesIndex s < List.length lineIndices)%nat).
  { apply nth_error_Some. congruence. }
  apply IH; cbn [dm_lineIndex dm_lineIndicesIndex]; [reflexivity|lia|lia].
Qed.

Lemma decodedMappings_for_fuel mappings lineIndices wfuel1 wfuel2 :
  (List.length lineIndices < wfuel1)%nat -> (List.length lineIndices < wfuel2)%nat ->
  forall fuel1 fuel2 i s,
  dm_lineIndex s = nth_error lineIndices (dm_lineIndicesIndex s) ->
  len mappings - i <= Z.of_nat fuel1 -> len mappings - i <= Z.of_nat fuel2 ->
  decodedMappings_for fuel1 wfuel1 mappings lineIndices i s =
  decodedMappings_for fuel2 wfuel2 mappings lineIndices i s.
Proof.
  intros Hw1 Hw2.
  induction fuel1 as [|fuel1 IH]; intros fuel2 i s Hs H1 H2.
  - destruct fuel2; cbn [decodedMappings_for]; [reflexivity|].
    destruct (Z.ltb_spec i (len mappings)); [lia|reflexivity].
  - destruct fuel2 as [|fuel2]; cbn [decodedMappings_for];
      destruct (Z.ltb_spec i (len mappings)); try reflexivity; try lia.
    destruct (decodedMappings_while_fuel lineIndices i wfuel1 wfuel2 s Hs
                ltac:(lia) ltac:(lia)) as [-> Hinv].
    apply IH; cbn [dm_lineIndex dm_lineIndicesIndex]; unfold ITEM_LENGTH; try lia.
    exact Hinv.
Qed.

(** [decodedMappings] does not depend on the fuel of its loops. *)
Lemma decodedMappings_fuel_enough this fuel wfuel :
  (List.length (_mappings this) <= fuel)%nat ->
  (List.length (_lineIndices this) < wfuel)%nat ->
  decodedMappings_fuel fuel wfuel this = decodedMappings this.
Proof.
  intros Hf Hw. unfold decodedMappings, decodedMappings_fuel.
  rewrite (decodedMappings_for_fuel (_mappings this) (_lineIndices this) wfuel
             (S (List.length (_lineIndices this))) Hw ltac:(lia)
             fuel (List.length (_mappings this)));
    [reflexivity|reflexivity|unfold len; lia|unfold len; lia].
Qed.

(** ** Well-formed strings *)

Lemma charCodeAt_codes s : forall pos, charCodeAt s pos = nth_error (codes s) pos.
Proof.
  unfold charCodeAt, codes.
  induction s as [|c s IH]; intros pos; cbn [String.get list_ascii_of_string map].
  - destruct pos; reflexivity.
  - destruct pos as [|pos]; [reflexivity|]. cbn [nth_error]. apply IH.
Qed.

Lemma codes_length s : List.length (codes s) = slen s.
Proof.
  unfold codes, slen. rewrite length_map.
  induction s as [|c s IH]; cbn; [reflexivity|]. rewrite IH. reflexivity.
Qed.

Lemma skipn_charCodeAt encoded pos c :
  charCodeAt encoded pos = Some c ->
  skipn pos (codes encoded) = c :: skipn (S pos) (codes encoded).
Proof.
  rewrite charCodeAt_codes. generalize (codes encoded). clear encoded.
  induction pos as [|pos IH]; intros l H; destruct l as [|x l]; try discriminate.
  - cbn in *. congruence.
  - cbn [nth_error] in H. cbn [skipn]. rewrite (IH l H). reflexivity.
Qed.

Lemma skipn_outside encoded pos :
  charCodeAt encoded pos = None -> skipn pos (codes encoded) = [].
Proof.
  rewrite charCodeAt_codes. intros H. apply skipn_all2.
  apply nth_error_None. exact H.
Qed.

Lemma decodeInteger_value_next encoded pos :
  snd (decodeInteger_value encoded pos) =
  snd (decodeInteger_loop (slen encoded - pos) encoded pos 0 0).
Proof.
  unfold decodeInteger_value.
  destruct (decodeInteger_loop (slen encoded - pos) encoded pos 0 0). reflexivity.
Qed.

(** One value of a well-formed string: the decoder stops where the value
    ends, inside the string, and passes no separator. *)
Lemma decodeInteger_loop_scan encoded : forall fuel pos value shift fields mid,
  (slen encoded - pos <= fuel)%nat ->
  segments_ok (skipn pos (codes encoded)) fields mid = true ->
  (mid = true \/
   exists c, charCodeAt encoded pos = Some c /\ is_separator c = false) ->
  let pos' := snd (decodeInteger_loop fuel encoded pos value shift) in
  (pos < pos' <= slen encoded)%nat /\
  segments_ok (skipn pos' (codes encoded)) (S fields) false = true /\
  count_occ Z.eq_dec (skipn pos' (codes encoded)) 59 =
  count_occ Z.eq_dec (skipn pos (codes encoded)) 59.
Proof.
  induction fuel as [|fuel IH]; intros pos value shift fields mid Hf Hok Hpre.
  all: assert (Hc : exists c, charCodeAt encoded pos = Some c /\ is_separator c = false).
  all: try (destruct Hpre as [->|Hpre]; [|exact Hpre];
            destruct (charCodeAt encoded pos) as [c|] eqn:E;
            [ rewrite (skipn_charCodeAt _ _ _ E) in Hok; cbn [segments_ok] in Hok;
              destruct (is_separator c) eqn:Es; [cbn in Hok; discriminate|];
              exists c; auto
            | rewrite (skipn_outside _ _ E) in Hok; cbn in Hok; discriminate ]).
  all: destruct Hc as (c & Hc & Hsep).
  all: assert (Hin : (pos < slen encoded)%nat)
         by (rewrite <- codes_length; apply nth_error_Some;
             rewrite <- charCodeAt_codes; congruence).
  - lia.
  - rewrite (skipn_charCodeAt _ _ _ Hc) in Hok |- *. cbn [segments_ok] in Hok.
    rewrite Hsep in Hok.
    assert (H59 : c <> 59).
    { intros ->. cbn in Hsep. discriminate. }
    cbn zeta. cbn [decodeInteger_loop]. rewrite Hc.
    unfold continues in Hok.
    destruct (Z.land (base64Index_at (Some c)) 32 =? 0); cbn [negb] in Hok;
      apply andb_true_iff in Hok; destruct Hok as [_ Hok].
    + cbn [snd]. split; [lia|]. split; [exact Hok|].
      cbn [count_occ]. destruct (Z.eq_dec c 59); [contradiction|reflexivity].
    + specialize (IH (S pos) (or32 value (shl32 (Z.land (base64Index_at (Some c)) 31) shift))
                    (shift + 5) fields true ltac:(lia) Hok (or_introl eq_refl)).
      cbn zeta in IH. destruct IH as (IH1 & IH2 & IH3).
      split; [lia|]. split; [exact IH2|]. rewrite IH3.
      cbn [count_occ]. destruct (Z.eq_dec c 59); [contradiction|reflexivity].
Qed.

Lemma decodeInteger_value_scan encoded pos fields :
  segments_ok (skipn pos (codes encoded)) fields false = true ->
  (exists c, charCodeAt encoded pos = Some c /\ is_separator c = false) ->
  let pos' := snd (decodeInteger_value encoded pos) in
  (pos < pos' <= slen encoded)%nat /\
  segments_ok (skipn pos' (codes encoded)) (S fields) false = true /\
  count_occ Z.eq_dec (skipn pos' (codes encoded)) 59 =
  count_occ Z.eq_dec (skipn pos (codes encoded)) 59.
Proof.
  intros Hok Hpre. cbn zeta. rewrite decodeInteger_value_next.
  apply (decodeInteger_loop_scan encoded _ pos 0 0 fields false); auto.
Qed.

(** Inside a segment of two or three values a further value follows. *)
Lemma segments_ok_more encoded pos fields :
  segments_ok (skipn pos (codes encoded)) fields false = true ->
  arity_ok fields = false ->
  exists c, charCodeAt encoded pos = Some c /\ is_separator c = false.
Proof.
  intros Hok Har.
  destruct (charCodeAt encoded pos) as [c|] eqn:E.
  - rewrite (skipn_charCodeAt _ _ _ E) in Hok. cbn [segments_ok] in Hok.
    exists c. split; [reflexivity|].
    destruct (is_separator c); [|reflexivity].
    rewrite Har in Hok. cbn in Hok. discriminate.
  - rewrite (skipn_outside _ _ E) in Hok. cbn [segments_ok] in Hok.
    rewrite Har in Hok. cbn in Hok. discriminate.
Qed.

(** After a segment of five values comes a separator or the end. *)
Lemma segments_ok_full encoded pos :
  segments_ok (skipn pos (codes encoded)) 5 false = true ->
  hasMoreMappings encoded pos = false \/ (slen encoded < pos)%nat.
Proof.
  intros Hok. unfold hasMoreMappings.
  destruct (Nat.eqb_spec pos (slen encoded)); [left; reflexivity|].
  destruct (charCodeAt encoded pos) as [c|] eqn:E.
  - rewrite (skipn_charCodeAt _ _ _ E) in Hok. cbn [segments_ok] in Hok.
    unfold is_separator in Hok. left.
    destruct (c =? 44), (c =? 59); cbn in *; try reflexivity.
    destruct (continues c); discriminate.
  - right. rewrite charCodeAt_codes in E. apply nth_error_None in E.
    rewrite codes_length in E. lia.
Qed.

Lemma hasMoreMappings_true encoded pos :
  (pos <= slen encoded)%nat -> hasMoreMappings encoded pos = true ->
  exists c, charCodeAt encoded pos = Some c /\ is_separator c = false.
Proof.
  intros Hle H. unfold hasMoreMappings in H.
  destruct (Nat.eqb_spec pos (slen encoded)); [discriminate|].
  destruct (charCodeAt encoded pos) as [c|] eqn:E.
  - exists c. split; [reflexivity|]. unfold is_separator.
    destruct (c =? 44), (c =? 59); cbn in *; congruence.
  - rewrite charCodeAt_codes in E. apply nth_error_None in E.
    rewrite codes_length in E. lia.
Qed.

Lemma hasMoreMappings_false encoded pos :
  hasMoreMappings encoded pos = false ->
  match charCodeAt encoded pos with
  | Some c => is_separator c = true
  | None => True
  end.
Proof.
  unfold hasMoreMappings.
  destruct (Nat.eqb_spec pos (slen encoded)) as [->|].
  - intros _. rewrite charCodeAt_outside by lia. exact I.
  - destruct (charCodeAt encoded pos) as [c|]; [|trivial].
    unfold is_separator. destruct (c =? 44), (c =? 59); cbn; congruence.
Qed.

(** Where [decode] stands after one record. *)
Lemma decode_record_pos encoded s :
  let next p := snd (decodeInteger_value encoded p) in
  let p1 := next (d_pos s) in
  let p4 := next (next (next p1)) in
  d_pos (decode_record encoded s) =
  if negb (hasMoreMappings encoded p1) then p1
  else if negb (hasMoreMappings encoded p4) then p4
  else next p4.
Proof.
  cbn zeta. unfold decode_record, add_assign.
  repeat (rewrite decodeInteger_eq; cbn beta iota zeta).
  destruct (hasMoreMappings encoded (snd (decodeInteger_value encoded (d_pos s))));
    cbn [negb]; [|reflexivity].
  destruct (hasMoreMappings encoded _); reflexivity.
Qed.

(** One record of a well-formed string: [decode] stops at the separator (or
    the end) that closes the segment and passes no [;]. *)
Lemma decode_record_scan encoded s :
  segments_ok (skipn (d_pos s) (codes encoded)) 0 false = true ->
  (exists c, charCodeAt encoded (d_pos s) = Some c /\ is_separator c = false) ->
  let pos' := d_pos (decode_record encoded s) in
  (pos' <= slen encoded)%nat /\
  (exists fields, segments_ok (skipn pos' (codes encoded)) fields false = true) /\
  at_boundary encoded pos' /\
  count_occ Z.eq_dec (skipn pos' (codes encoded)) 59 =
  count_occ Z.eq_dec (skipn (d_pos s) (codes encoded)) 59.
Proof.
  intros Hok Hpre. cbn zeta. rewrite decode_record_pos. cbn zeta.
  destruct (decodeInteger_value_scan encoded _ 0 Hok Hpre) as (Hp1 & Hok1 & Hc1).
  set (p1 := snd (decodeInteger_value encoded (d_pos s))) in *.
  destruct (hasMoreMappings encoded p1) eqn:E1; cbn [negb].
  2:{ split; [lia|]. split; [eauto|]. split; [|exact Hc1].
      apply hasMoreMappings_false. exact E1. }
  pose proof (hasMoreMappings_true encoded p1 ltac:(lia) E1) as Hpre1.
  destruct (decodeInteger_value_scan encoded _ 1 Hok1 Hpre1) as (Hp2 & Hok2 & Hc2).
  set (p2 := snd (decodeInteger_value encoded p1)) in *.
  pose proof (segments_ok_more encoded p2 2 Hok2 eq_refl) as Hpre2.
  destruct (decodeInteger_value_scan encoded _ 2 Hok2 Hpre2) as (Hp3 & Hok3 & Hc3).
  set (p3 := snd (decodeInteger_value encoded p2)) in *.
  pose proof (segments_ok_more encoded p3 3 Hok3 eq_refl) as Hpre3.
  destruct (decodeInteger_value_scan encoded _ 3 Hok3 Hpre3) as (Hp4 & Hok4 & Hc4).
  set (p4 := snd (decodeInteger_value encoded p3)) in *.
  destruct (hasMoreMappings encoded p4) eqn:E4; cbn [negb].
  2:{ split; [lia|]. split; [eauto|]. split; [|congruence].
      apply hasMoreMappings_false. exact E4. }
  pose proof (hasMoreMappings_true encoded p4 ltac:(lia) E4) as Hpre4.
  destruct (decodeInteger_value_scan encoded _ 4 Hok4 Hpre4) as (Hp5 & Hok5 & Hc5).
  set (p5 := snd (decodeInteger_value encoded p4)) in *.
  split; [lia|]. split; [eauto|]. split; [|congruence].
  apply hasMoreMappings_false.
  destruct (segments_ok_full encoded p5 Hok5) as [H|H]; [exact H|lia].
Qed.

Lemma branch_of_cases c :
  match branch_of (Some c) with
  | Comma => c = 44
  | Semicolon => c = 59
  | Record_ => is_separator c = false
  end.
Proof.
  unfold branch_of, is_separator.
  destruct c as [|c|c]; try reflexivity.
  do 6 (destruct c as [c|c|]; try reflexivity).
Qed.

(** On a well-formed string the decoder observes one line per [;], and one
    more. *)
Lemma line_record_counts_loop_length encoded : forall fuel s current,
  decode_inv s ->
  (slen encoded - d_pos s <= fuel)%nat ->
  (exists fields,
     segments_ok (skipn (d_pos s) (codes encoded)) fields false = true /\
     (fields = 0%nat \/ at_boundary encoded (d_pos s))) ->
  List.length (line_record_counts_loop fuel encoded s current) =
  S (count_occ Z.eq_dec (skipn (d_pos s) (codes encoded)) 59).
Proof.
  induction fuel as [|fuel IH]; intros s current Hinv Hf (fields & Hok & Hb);
    cbn [line_record_counts_loop].
  - rewrite skipn_all2 by (rewrite codes_length; lia). reflexivity.
  - destruct (Nat.ltb_spec (d_pos s) (slen encoded)) as [Hlt|Hge];
      [|rewrite skipn_all2 by (rewrite codes_length; lia); reflexivity].
    pose proof (decode_step_inv encoded s Hinv) as Hinv'.
    pose proof (decode_step_pos encoded s Hinv) as Hpos.
    destruct (charCodeAt encoded (d_pos s)) as [c|] eqn:E.
    2:{ rewrite charCodeAt_codes in E. apply nth_error_None in E.
        rewrite codes_length in E. lia. }
    pose proof (branch_of_cases c) as Hbr.
    revert Hinv' Hpos. rewrite decode_step_branch, E.
    rewrite (skipn_charCodeAt _ _ _ E) in Hok |- *.
    destruct (branch_of (Some c)); intros Hinv' Hpos.
    + subst c. cbn [segments_ok is_separator Z.eqb orb] in Hok.
      apply andb_true_iff in Hok. destruct Hok as [_ Hok].
      rewrite IH; [|assumption|cbn [d_pos]; lia|exists 0%nat; auto].
      cbn [d_pos count_occ]. destruct (Z.eq_dec 44 59); [discriminate|reflexivity].
    + subst c. cbn [segments_ok is_separator Z.eqb orb] in Hok.
      apply andb_true_iff in Hok. destruct Hok as [_ Hok].
      cbn [List.length]. rewrite IH; [|assumption|cbn [d_pos]; lia|exists 0%nat; auto].
      cbn [d_pos count_occ]. destruct (Z.eq_dec 59 59); [reflexivity|contradiction].
    + destruct Hb as [->|Hb];
        [|unfold at_boundary in Hb; rewrite E in Hb; congruence].
      rewrite <- (skipn_charCodeAt _ _ _ E) in Hok |- *.
      destruct (decode_record_scan encoded s Hok ltac:(eauto))
        as (Hle & (fields' & Hok') & Hb' & Hcount).
      rewrite IH; [rewrite Hcount; reflexivity|assumption|lia|].
      exists fields'. auto.
Qed.

Lemma line_record_counts_well_formed encoded :
  well_formed encoded = true ->
  List.length (line_record_counts encoded) = S (semicolons encoded).
Proof.
  intros Hwf. unfold line_record_counts, semicolons.
  rewrite (line_record_counts_loop_length encoded (slen encoded) (decode_init []) 0
             decode_inv_init).
  - reflexivity.
  - cbn. lia.
  - exists 0%nat. split; [exact Hwf|left; reflexivity].
Qed.

(** * The claims *)

(** ** The VLQ decoder *)

(** C4, the counterexamples.  The digit ['B'] (1) is a sign flag over zero
    magnitude bits and decodes to -2^31, not to 0; and a ninth digit is not
    taken as bits 40-44 of the magnitude: ["ggggggggB"] decodes to 128, not
    to 2^39. *)
Lemma decodeInteger_negative_zero :
  vlq_digits "B" 0 [1] /\
  fst (decodeInteger_value "B" 0) = - 2 ^ 31 /\
  fst (decodeInteger_value "B" 0) <> - Z.shiftr (vlq_reassemble [1]) 1 /\
  vlq_digits "ggggggggB" 0 [32; 32; 32; 32; 32; 32; 32; 32; 1] /\
  fst (decodeInteger_value "ggggggggB" 0) = 128 /\
  fst (decodeInteger_value "ggggggggB" 0) <>
    Z.shiftr (vlq_reassemble [32; 32; 32; 32; 32; 32; 32; 32; 1]) 1.
Proof.
  vm_compute. repeat split; discriminate.
Qed.

(** C4, amended.  For every sequence of at most seven base-64 digits (35
    bits, of which the code keeps the low 32), the decoder reads the digits
    least significant group first, takes the low 5 bits of each digit as the
    next 5 bits and bit 32 as the continuation flag, and treats the least
    significant bit of the reassembled 32-bit value as the sign flag: the
    decoded integer is the remaining bits shifted right by 1, negated when
    the sign flag is set; a set sign flag over all-zero remaining bits
    decodes to -2^31.  The position returned is the one after the last
    digit. *)
Theorem decodeInteger_vlq (encoded : string) (pos : nat) (ds : list Z) :
  vlq_digits encoded pos ds -> (List.length ds <= 7)%nat ->
  let value := vlq_reassemble ds mod 2 ^ 32 in
  decodeInteger_value encoded pos =
  (if Z.testbit value 0
   then if Z.shiftr value 1 =? 0 then - 2 ^ 31 else - Z.shiftr value 1
   else Z.shiftr value 1,
   (pos + List.length ds)%nat).
Proof.
  intros Hds Hlen. cbn zeta.
  assert (Hfuel : (List.length ds <= S (slen encoded - pos))%nat).
  { clear Hlen. revert pos Hds. induction ds as [|d ds IH]; intros pos Hds; [destruct Hds|].
    destruct Hds as [Hdig Hrest]. destruct ds as [|d' ds]; [cbn; lia|].
    destruct Hrest as [Hcont Hrest]. rewrite <- Hdig in Hcont.
    apply continuation_inside in Hcont.
    specialize (IH (S pos) Hrest). cbn [List.length] in *. lia. }
  unfold decodeInteger_value.
  pose proof (decodeInteger_loop_digits encoded ds (slen encoded - pos) pos 0 0 Hds Hfuel
                ltac:(lia) ltac:(unfold len; lia) ltac:(cbn; lia)) as Hloop.
  change (5 * 0) with 0 in Hloop. rewrite Hloop.
  replace (0 + 2 ^ 0 * vlq_reassemble ds) with (vlq_reassemble ds) by (change (2 ^ 0) with 1; lia).
  set (M := vlq_reassemble ds).
  set (V := M mod 2 ^ 32).
  assert (HV : 0 <= V < 2 ^ 32) by (apply Z.mod_pos_bound; lia).
  assert (Hsh : shru32 (ToInt32 M) 1 = Z.shiftr V 1).
  { unfold shru32. rewrite ToUint32_ToInt32. reflexivity. }
  assert (Hbit : Z.land (ToInt32 M) 1 = if Z.testbit V 0 then 1 else 0).
  { change 1 with (Z.ones 1) at 1. rewrite Z.land_ones by lia.
    rewrite Z.bit0_eqb.
    assert (ToInt32 M mod 2 ^ 1 = V mod 2).
    { unfold ToInt32, V. change (2 ^ 1) with 2.
      Z.to_euclidean_division_equations. lia. }
    destruct (Z.eqb_spec (V mod 2) 1); Z.to_euclidean_division_equations; lia. }
  rewrite Hbit, Hsh.
  assert (Hu : 0 <= Z.shiftr V 1 < 2 ^ 31).
  { rewrite Z.shiftr_div_pow2 by lia. change (2 ^ 1) with 2.
    Z.to_euclidean_division_equations. lia. }
  destruct (Z.testbit V 0); cbn [Z.eqb]; [|reflexivity].
  rewrite or32_negate by exact Hu. reflexivity.
Qed.

Lemma decodeInteger_vlq_witness :
  decodeInteger_value "AAAA,SAAS;KACA" 5 = (9, 6%nat) /\
  decodeInteger_value "D" 0 = (-1, 1%nat) /\
  decodeInteger_value "+/////D" 0 = (2147483647, 7%nat).
Proof.
  split; [|split].
  - apply (decodeInteger_vlq "AAAA,SAAS;KACA" 5 [18]); [vm_compute; auto|cbn; lia].
  - apply (decodeInteger_vlq "D" 0 [3]); [vm_compute; auto|cbn; lia].
  - apply (decodeInteger_vlq "+/////D" 0 [62; 63; 63; 63; 63; 63; 3]);
      [vm_compute; repeat split; discriminate|cbn; lia].
Defined.

(** ** The line table *)

(** C5, the counterexample: for ["AAAA"] the only line holds one record,
    and the table entry that ends it is 5, the number of buffer integers,
    not 1, the number of records. *)
Lemma line_table_counts_integers :
  snd (decode "AAAA" []) = [0; 5] /\
  line_record_counts "AAAA" = [1%nat] /\
  len (fst (decode "AAAA" [])) = 5 /\
  nth 1 (snd (decode "AAAA" [])) 0 <>
    nth 0 (snd (decode "AAAA" [])) 0 + Z.of_nat (nth 0 (line_record_counts "AAAA") 0%nat).
Proof. vm_compute. repeat split; discriminate. Qed.

(** C5, amended.  For every input string, the line table that [decode]
    fills has one entry more than the number of generated lines observed
    (trailing empty lines included) and does not decrease; its first entry
    is 0 and its last the length of the buffer; and entries [i] and [i + 1]
    are the start and the exclusive end of the records of line [i] in units
    of buffer integers, [ITEM_LENGTH] per record: the table is the running
    sum of the record counts of the lines times [ITEM_LENGTH].  The loop of
    [decode] is left at the end of the input.  For a well-formed string the
    lines observed are one more than its [;]. *)
Theorem decode_line_table (encoded : string) :
  let mappings := fst (decode encoded []) in
  let lines := snd (decode encoded []) in
  let counts := line_record_counts encoded in
  (slen encoded <= d_pos (decode_run encoded []))%nat /\
  lines = 0 :: offsets 0 counts /\
  List.length lines = S (List.length counts) /\
  nth 0 lines 0 = 0 /\
  last lines 0 = len mappings /\
  (forall i, (i < List.length counts)%nat ->
     nth (S i) lines 0 = nth i lines 0 + ITEM_LENGTH * Z.of_nat (nth i counts 0%nat) /\
     nth i lines 0 <= nth (S i) lines 0) /\
  (well_formed encoded = true -> List.length counts = S (semicolons encoded)).
Proof.
  cbn zeta.
  pose proof (decode_spec encoded) as H. cbn zeta in H.
  destruct H as (Hdone & Hlines & Hlen & _ & _).
  pose proof (decode_loop_lines encoded (slen encoded) (decode_init []) 0
                decode_inv_init ltac:(cbn; unfold ITEM_LENGTH; lia)) as Ht.
  cbn zeta in Ht. fold (decode_run encoded []) in Ht.
  fold (line_record_counts encoded) in Ht.
  rewrite <- Hlines in Ht. change (d_lines (decode_init [])) with [0] in Ht.
  change (d_lastLineStart (decode_init [])) with 0 in Ht. cbn [app] in Ht.
  split; [exact Hdone|]. split; [exact Ht|].
  split; [rewrite Ht; cbn [List.length]; rewrite offsets_length; reflexivity|].
  split; [rewrite Ht; reflexivity|].
  split; [rewrite Hlines, last_last; symmetry; exact Hlen|].
  split; [|apply line_record_counts_well_formed].
  intros i Hi. rewrite Ht.
  pose proof (offsets_nth (line_record_counts encoded) 0 i Hi) as Hn.
  split; [exact Hn|]. unfold ITEM_LENGTH in *. lia.
Qed.

(** The strings of the scenarios are well formed. *)
Example well_formed_scenarios :
  well_formed "AAAA,SAAS;KACA" = true /\ well_formed "" = true /\
  well_formed "AAAA;" = true /\ well_formed "C,D" = true.
Proof. vm_compute. auto. Qed.

(** ** Materialisation *)

(** C9.  For a packed record [f0 f1 f2 f3 f4] at offset [i] of the buffer,
    [segmentify] returns the tuple of least arity the absence sentinel [0]
    allows: [[f0]] when field 1 is 0; else the 4-tuple with fields 1-3 minus
    one when field 4 is 0; else the 5-tuple with fields 1-4 minus one.  The
    generated column [f0] is returned as stored. *)
Theorem segmentify_minimal_arity (mappings : Uint32Array) (i f0 f1 f2 f3 f4 : Z) :
  0 <= i ->
  slice mappings i (i + ITEM_LENGTH) = [f0; f1; f2; f3; f4] ->
  segmentify mappings i =
    if f1 =? 0 then [f0]
    else if f4 =? 0 then [f0; f1 - 1; f2 - 1; f3 - 1]
    else [f0; f1 - 1; f2 - 1; f3 - 1; f4 - 1].
Proof.
  intros Hi Hrec.
  assert (Hf : forall k, 0 <= k < 5 ->
                 aget mappings (i + k) = aget [f0; f1; f2; f3; f4] k).
  { intros k Hk. rewrite <- Hrec. symmetry.
    apply aget_slice; unfold ITEM_LENGTH; lia. }
  unfold segmentify.
  rewrite (Hf 1), (Hf 2), (Hf 3), (Hf 4) by lia.
  replace (aget mappings i) with (aget mappings (i + 0)) by (f_equal; lia).
  rewrite (Hf 0) by lia. reflexivity.
Qed.

Lemma segmentify_minimal_arity_witness :
  segmentify [7; 0; 0; 0; 0; 9; 1; 1; 10; 0; 12; 3; 4; 5; 6] 0 = [7] /\
  segmentify [7; 0; 0; 0; 0; 9; 1; 1; 10; 0; 12; 3; 4; 5; 6] 5 = [9; 0; 0; 9] /\
  segmentify [7; 0; 0; 0; 0; 9; 1; 1; 10; 0; 12; 3; 4; 5; 6] 10 = [12; 2; 3; 4; 5].
Proof.
  split; [|split].
  - apply (segmentify_minimal_arity _ 0 7 0 0 0 0); [lia|reflexivity].
  - apply (segmentify_minimal_arity _ 5 9 1 1 10 0); [lia|reflexivity].
  - apply (segmentify_minimal_arity _ 10 12 3 4 5 6); [lia|reflexivity].
Defined.

(** ** The scenario of the specification *)

(** C8.  For ["AAAA,SAAS;KACA"], [decodedMappings] yields two lines, the
    first with mapped segments at generated columns 0 and 9, the second with
    one segment at column 5.  The packed second record of line 0 is
    [9 1 1 10 0], and [traceSegment(0, 9)] returns it with the source fields
    one less.  [traceSegment(1, 2)] and [traceSegment(5, 0)] return
    not-found.  The queries give these answers whatever was queried
    before. *)
Theorem scenario_AAAA_SAAS_KACA :
  decodedMappings scenario = [[[0; 0; 0; 0]; [9; 0; 0; 9]]; [[5; 0; 1; 9]]] /\
  slice (_mappings scenario) 5 10 = [9; 1; 1; 10; 0] /\
  forall queries,
    let this := snd (traceSegments scenario queries) in
    fst (traceSegment this 0 9) = Some [9; 0; 0; 9] /\
    fst (traceSegment this 1 2) = None /\
    fst (traceSegment this 5 0) = None.
Proof.
  split; [vm_compute; reflexivity|]. split; [vm_compute; reflexivity|].
  intros queries this.
  pose proof (traceSegments_memo queries scenario (new_map_ok _) (new_cursor_ok _)) as H.
  cbn zeta in H. fold this in H. destruct H as (_ & Hm & Hl & Hmap & Hcur).
  repeat split;
    match goal with
    | |- fst (traceSegment this ?l ?c) = _ =>
        destruct (traceSegment_memo this l c Hmap Hcur) as (-> & _);
        rewrite (traceSegment_scratch_ext scenario this l c Hm Hl)
    end; vm_compute; reflexivity.
Qed.

(** ** The empty mapping string *)

(** C10.  The map of the empty string has the line table [[0; 0]] and an
    empty buffer; [decodedMappings] returns one empty line, and
    [traceSegment(0, column)] returns not-found for every column, whatever
    was queried before. *)
Theorem empty_mappings_map :
  let m := new_EncodedSourceMapImpl "" in
  _lineIndices m = [0; 0] /\
  _mappings m = [] /\
  decodedMappings m = [[]] /\
  forall queries column,
    fst (traceSegment (snd (traceSegments m queries)) 0 column) = None.
Proof.
  cbn zeta. split; [vm_compute; reflexivity|]. split; [vm_compute; reflexivity|].
  split; [vm_compute; reflexivity|].
  intros queries column.
  set (m := new_EncodedSourceMapImpl "").
  pose proof (traceSegments_memo queries m (new_map_ok _) (new_cursor_ok _)) as H.
  cbn zeta in H. destruct H as (_ & Hm & Hl & Hmap & Hcur).
  destruct (traceSegment_memo _ 0 column Hmap Hcur) as (-> & _).
  rewrite (traceSegment_scratch_ext m _ 0 column Hm Hl).
  reflexivity.
Qed.

(** ** Point queries *)

Lemma queried_ok encoded queries :
  let m := new_EncodedSourceMapImpl encoded in
  let this := queried encoded queries in
  _mappings this = _mappings m /\ _lineIndices this = _lineIndices m /\
  map_ok this /\ cursor_ok this.
Proof.
  cbn zeta. unfold queried.
  pose proof (traceSegments_memo queries _ (new_map_ok encoded) (new_cursor_ok encoded)) as H.
  cbn zeta in H. tauto.
Qed.

(** C2.  On every decoded map, after any earlier queries,
    [traceSegment(line, column)] returns the materialised record of that
    line with the greatest generated column that is at most [column] (the
    rightmost such record), and it returns not-found exactly when the line
    is not a line of the map or every record of the line lies after
    [column] (the query precedes the first record, or the line is empty). *)
Theorem traceSegment_point_query (encoded : string) (queries : list (nat * Z))
    (line : nat) (column : Z) :
  let this := queried encoded queries in
  let mappings := _mappings this in
  match fst (traceSegment this line column) with
  | Some seg =>
      known_line this line /\
      exists idx,
        record_of_line this line idx /\
        seg = segmentify mappings idx /\
        aget mappings idx <= column /\
        forall j, record_of_line this line j -> aget mappings j <= column ->
                  j <= idx /\ aget mappings j <= aget mappings idx
  | None =>
      ~ known_line this line \/
      forall j, record_of_line this line j -> column < aget mappings j
  end.
Proof.
  cbn zeta.
  destruct (queried_ok encoded queries) as (_ & _ & Hmap & Hcur).
  destruct (traceSegment_memo _ line column Hmap Hcur) as (-> & _).
  apply traceSegment_scratch_spec. exact Hmap.
Qed.

(** C6.  On every decoded map, after any earlier queries: a line index at or
    beyond [lineIndices.length - 1] returns not-found at once, for every
    column, and leaves the map object as it was; a column before the first
    record of a known line (or any column on an empty line) returns
    not-found too.  [traceSegment] is total: no query fails. *)
Theorem traceSegment_out_of_range (encoded : string) (queries : list (nat * Z))
    (line : nat) (column : Z) :
  let this := queried encoded queries in
  (len (_lineIndices this) - 1 <= Z.of_nat line ->
   traceSegment this line column = (None, this)) /\
  (known_line this line ->
   (line_start this line < line_end this line ->
    column < aget (_mappings this) (line_start this line)) ->
   fst (traceSegment this line column) = None).
Proof.
  cbn zeta. split.
  - intros Hge. unfold traceSegment.
    destruct (Z.leb_spec (len (_lineIndices (queried encoded queries)) - 1)
                (Z.of_nat line)); [reflexivity|lia].
  - intros Hk Hbefore.
    destruct (queried_ok encoded queries) as (_ & _ & Hmap & Hcur).
    destruct (traceSegment_memo _ line column Hmap Hcur) as (-> & _).
    pose proof (traceSegment_scratch_spec _ line column Hmap) as H.
    destruct (traceSegment_scratch (queried encoded queries) line column) as [seg|];
      [|reflexivity].
    exfalso. destruct H as (_ & idx & (k & Hk0 & Hidx & Hlt) & _ & Hle & Hmax).
    set (this := queried encoded queries) in *.
    assert (Hfirst : record_of_line this line (line_start this line)).
    { exists 0. unfold ITEM_LENGTH in *. repeat split; lia. }
    specialize (Hbefore ltac:(destruct Hfirst as (? & ? & ? & ?); assumption)).
    destruct (known_line_range this line Hmap Hk) as (Hx & (n & Hn & Hy) & Hs & _).
    rewrite Hy in Hs.
    pose proof (range_sorted _ _ _ Hs 0 k ltac:(lia)
                  ltac:(unfold ITEM_LENGTH in *; lia)) as H0k.
    replace (line_start this line + ITEM_LENGTH * 0) with (line_start this line) in H0k
      by (unfold ITEM_LENGTH; lia).
    rewrite <- Hidx in H0k. lia.
Qed.

(** ** Memoisation *)

(** C7, the counterexample: a query for a line outside the map returns
    before the search is called and leaves the cursor as it was; here it
    still names line 0 after [traceSegment(5, 3)]. *)
Lemma cursor_kept_on_unknown_line :
  let m := new_EncodedSourceMapImpl "AAAA" in
  fst (traceSegment m 5 3) = None /\
  snd (traceSegment m 5 3) = m /\
  _lastLine (snd (traceSegment m 5 3)) <> 5%nat /\
  _lastColumn (snd (traceSegment m 5 3)) <> 3.
Proof. vm_compute. repeat split; discriminate. Qed.

(** C7, amended.  For every decoded map and every sequence of queries, in
    any order, the results are the ones of the variant that searches the
    whole record range of the line on every call.  The cursor is updated on
    every call whose line is a line of the map, not-found outcomes included:
    it then holds the queried line, the queried column and the index the
    search returned (negative for not-found).  A call for a line outside the
    map leaves the map object unchanged. *)
Theorem memoization_equivalence (encoded : string) (queries : list (nat * Z)) :
  let m := new_EncodedSourceMapImpl encoded in
  fst (traceSegments m queries) =
    map (fun q => traceSegment_scratch m (fst q) (snd q)) queries /\
  forall line column,
    let this := snd (traceSegments m queries) in
    let r := traceSegment this line column in
    (known_line this line ->
     _lastLine (snd r) = line /\ _lastColumn (snd r) = column /\
     _lastIndex (snd r) = scratch_index m line column /\
     fst r = if _lastIndex (snd r) <? 0 then None
             else Some (segmentify (_mappings m) (_lastIndex (snd r)))) /\
    (~ known_line this line -> snd r = this).
Proof.
  cbn zeta.
  pose proof (traceSegments_memo queries _ (new_map_ok encoded) (new_cursor_ok encoded)) as H.
  cbn zeta in H. destruct H as (Hr & Hm & Hl & Hmap & Hcur).
  split; [exact Hr|]. intros line column.
  set (m := new_EncodedSourceMapImpl encoded) in *.
  set (this := snd (traceSegments m queries)) in *.
  pose proof (traceSegment_memo this line column Hmap Hcur) as H.
  cbn zeta in H. destruct H as (Hres & _ & _ & _ & _ & Hupd & Hkeep).
  split; [|exact Hkeep].
  intros Hk. destruct (Hupd Hk) as (H1 & H2 & H3).
  assert (Hidx : scratch_index this line column = scratch_index m line column).
  { unfold scratch_index, line_start, line_end. rewrite Hm, Hl. reflexivity. }
  rewrite H1, H2, H3, Hres, Hidx. repeat split.
  unfold traceSegment_scratch.
  apply known_line_guard in Hk. rewrite Hk.
  replace (Z.of_nat line + 1) with (Z.of_nat (S line)) by lia.
  rewrite !aget_nth. rewrite Hm, Hl. reflexivity.
Qed.

(** ** The defects of the normaliser and of the full unpack *)

(** C1, at the failing input ["C,D"] (one line, generated columns 1 then 0):
    before the line is closed the buffer holds the two records [1 0 0 0 0]
    and [0 0 0 0 0]; [maybeSort] collects two copies of the first record
    and writes them back, so the record with column 0 is gone and the range
    is not a permutation of what it was. *)
Theorem maybeSort_loses_records :
  let s := decode_run "C,D" [] in
  slice (d_decoded s) 0 (d_count s) = [1; 0; 0; 0; 0; 0; 0; 0; 0; 0] /\
  fst (decode "C,D" []) = [1; 0; 0; 0; 0; 1; 0; 0; 0; 0] /\
  ~ Permutation (slice (d_decoded s) 0 (d_count s)) (fst (decode "C,D" [])) /\
  decodedMappings (new_EncodedSourceMapImpl "C,D") = [[[1]; [1]]].
Proof.
  cbn zeta.
  assert (H1 : slice (d_decoded (decode_run "C,D" [])) 0 (d_count (decode_run "C,D" []))
               = [1; 0; 0; 0; 0; 0; 0; 0; 0; 0]) by (vm_compute; reflexivity).
  assert (H2 : fst (decode "C,D" []) = [1; 0; 0; 0; 0; 1; 0; 0; 0; 0])
    by (vm_compute; reflexivity).
  rewrite H1, H2.
  split; [reflexivity|]. split; [reflexivity|]. split.
  - intros Hp.
    assert (Hc : count_occ Z.eq_dec [1; 0; 0; 0; 0; 0; 0; 0; 0; 0] 1 =
                 count_occ Z.eq_dec [1; 0; 0; 0; 0; 1; 0; 0; 0; 0] 1).
    { revert Hp. generalize [1; 0; 0; 0; 0; 0; 0; 0; 0; 0].
      generalize [1; 0; 0; 0; 0; 1; 0; 0; 0; 0].
      intros l2 l1 Hp. apply (proj1 (Permutation_count_occ Z.eq_dec l1 l2) Hp). }
    vm_compute in Hc. discriminate.
  - vm_compute. reflexivity.
Qed.

(** The part of C1 that holds: whatever the input, every line of the buffer
    is in non-decreasing order of generated column after construction. *)
Lemma lines_sorted_after_construction (encoded : string) (line : nat) :
  let m := new_EncodedSourceMapImpl encoded in
  known_line m line ->
  forall i j, record_of_line m line i -> record_of_line m line j -> i <= j ->
  aget (_mappings m) i <= aget (_mappings m) j.
Proof.
  cbn zeta. intros Hk i j (ki & Hki & -> & Hi) (kj & Hkj & -> & Hj) Hij.
  destruct (known_line_range _ line (new_map_ok encoded) Hk)
    as (Hx & (n & Hn & Hy) & Hs & _).
  rewrite Hy in Hs, Hi, Hj.
  apply (range_sorted _ _ _ Hs); unfold ITEM_LENGTH in *; lia.
Qed.

(** C3, at the failing input ["AAAA;"] (a mapped line, then an empty one):
    the line table has three entries, so the map has two generated lines,
    and [decodedMappings] returns one line only; the trailing empty line is
    missing. *)
Theorem decodedMappings_drops_trailing_lines :
  let m := new_EncodedSourceMapImpl "AAAA;" in
  _lineIndices m = [0; 5; 5] /\
  decodedMappings m = [[[0; 0; 0; 0]]] /\
  len (decodedMappings m) <> len (_lineIndices m) - 1.
Proof. vm_compute. repeat split; discriminate. Qed.

(** * Further properties of the code *)

(** ** [reserve] *)

Lemma aget_eq_nth (a : list Z) (i : nat) : nth i a 0 = aget a (Z.of_nat i).
Proof. symmetry. apply aget_nth. Qed.

Lemma aget_ext (a b : list Z) :
  len a = len b -> (forall j, 0 <= j < len a -> aget a j = aget b j) -> a = b.
Proof.
  intros Hl H. apply (nth_ext a b 0 0); [unfold len in Hl; lia|].
  intros i Hi. rewrite !aget_eq_nth. apply H. unfold len. lia.
Qed.

(** X1.  [reserve] returns the array itself when it has room for [count]
    more elements after [pos], and otherwise the array followed by as many
    zeros as it has elements.  One doubling makes room whenever the array
    is longer than [count] and [pos] lies within it. *)
Theorem reserve_pads_with_zeros (buf : Uint32Array) (pos count : Z) :
  reserve buf pos count =
    buf ++ repeat 0 (if pos + count <? len buf then 0%nat else List.length buf) /\
  (count < len buf -> pos <= len buf -> pos + count < len (reserve buf pos count)).
Proof.
  split; [|intros H1 H2; apply len_reserve; assumption].
  destruct (Z.ltb_spec (pos + count) (len buf)) as [Hlt|Hge].
  - unfold reserve. destruct (Z.ltb_spec (pos + count) (len buf)); [|lia].
    cbn [repeat]. rewrite app_nil_r. reflexivity.
  - assert (Hlen : len (reserve buf pos count) = len buf * 2).
    { unfold reserve. destruct (Z.ltb_spec (pos + count) (len buf)); [lia|].
      pose proof (len_nonneg buf).
      rewrite len_set_from, len_new_array by lia. reflexivity. }
    apply aget_ext.
    + rewrite Hlen. unfold len. rewrite length_app, repeat_length. lia.
    + intros j Hj. rewrite aget_reserve. unfold aget.
      destruct (Z.ltb_spec j 0); [reflexivity|].
      destruct (Z.lt_ge_cases j (len buf)) as [Hin|Hout].
      * rewrite app_nth1 by (unfold len in Hin; lia). reflexivity.
      * rewrite nth_overflow by (unfold len in Hout; lia).
        rewrite app_nth2 by (unfold len in Hout; lia).
        destruct (Nat.lt_ge_cases (Z.to_nat j - List.length buf) (List.length buf)).
        -- rewrite nth_repeat_lt by assumption. reflexivity.
        -- rewrite nth_overflow by (rewrite repeat_length; assumption). reflexivity.
Qed.

(** ** [isSorted] and [maybeSort] *)


(** X3.  [maybeSort] on a range of whole records inside the array works in
    place and on that range only: the array keeps its length, the elements
    before [start] and from [end] on are untouched, and afterwards the
    generated columns of the records of the range do not decrease. *)
Theorem maybeSort_in_place (state : Uint32Array) (start n : Z) :
  0 <= start -> 0 <= n -> start + ITEM_LENGTH * n <= len state ->
  let end_ := start + ITEM_LENGTH * n in
  let r := maybeSort state start end_ in
  List.length r = List.length state /\
  firstn (Z.to_nat start) r = firstn (Z.to_nat start) state /\
  skipn (Z.to_nat end_) r = skipn (Z.to_nat end_) state /\
  isSorted r start end_ = true.
Proof.
  intros Hs Hn Hfit. cbn zeta.
  pose proof (maybeSort_spec state start n Hs Hn Hfit) as H. cbn zeta in H.
  destruct H as (Hlen & Hout & Hsorted).
  set (r := maybeSort state start (start + ITEM_LENGTH * n)) in *.
  assert (HlenN : List.length r = List.length state) by (unfold len in Hlen; lia).
  split; [exact HlenN|]. split; [|split].
  - apply (nth_ext _ _ 0 0); [rewrite !length_firstn; lia|].
    intros i Hi. rewrite length_firstn in Hi.
    rewrite !nth_firstn. destruct (Nat.ltb_spec i (Z.to_nat start)); [|reflexivity].
    rewrite !aget_eq_nth. apply Hout. lia.
  - apply (nth_ext _ _ 0 0); [rewrite !length_skipn; lia|].
    intros i Hi. rewrite !nth_skipn, !aget_eq_nth. apply Hout.
    unfold ITEM_LENGTH in *. lia.
  - apply isSorted_iff. exact Hsorted.
Qed.

Lemma maybeSort_in_place_witness :
  let r := maybeSort [9; 9; 3; 0; 0; 0; 0; 1; 0; 0; 0; 0; 2; 7; 7; 7; 7; 8] 2 12 in
  List.length r = 18%nat /\
  firstn 2 r = [9; 9] /\ skipn 12 r = [2; 7; 7; 7; 7; 8] /\
  isSorted r 2 12 = true.
Proof.
  apply (maybeSort_in_place
           [9; 9; 3; 0; 0; 0; 0; 1; 0; 0; 0; 0; 2; 7; 7; 7; 7; 8] 2 2);
    [lia|lia|vm_compute; discriminate].
Defined.

(** X4.  A range that is in order is left as it is, so [maybeSort] is
    idempotent: a second call on the same range changes nothing. *)
Theorem maybeSort_idempotent (state : Uint32Array) (start n : Z) :
  0 <= start -> 0 <= n -> start + ITEM_LENGTH * n <= len state ->
  let end_ := start + ITEM_LENGTH * n in
  (isSorted state start end_ = true -> maybeSort state start end_ = state) /\
  maybeSort (maybeSort state start end_) start end_ = maybeSort state start end_.
Proof.
  intros Hs Hn Hfit. cbn zeta. split.
  - intros H. unfold maybeSort. rewrite H. reflexivity.
  - pose proof (maybeSort_spec state start n Hs Hn Hfit) as H. cbn zeta in H.
    destruct H as (_ & _ & Hsorted). apply isSorted_iff in Hsorted.
    unfold maybeSort at 1. rewrite Hsorted. reflexivity.
Qed.

Lemma maybeSort_idempotent_witness :
  (isSorted [3; 0; 0; 0; 0; 1; 0; 0; 0; 0] 0 10 = true ->
   maybeSort [3; 0; 0; 0; 0; 1; 0; 0; 0; 0] 0 10 = [3; 0; 0; 0; 0; 1; 0; 0; 0; 0]) /\
  maybeSort (maybeSort [3; 0; 0; 0; 0; 1; 0; 0; 0; 0] 0 10) 0 10 =
  maybeSort [3; 0; 0; 0; 0; 1; 0; 0; 0; 0] 0 10.
Proof.
  apply (maybeSort_idempotent [3; 0; 0; 0; 0; 1; 0; 0; 0; 0] 0 2);
    [lia|lia|vm_compute; discriminate].
Defined.

(** X5.  On a range that is out of order [maybeSort] collects the slice at
    [start] once per record, so after the write-back every record of the
    range is a copy of the first record of the range. *)
Theorem maybeSort_out_of_order (state : Uint32Array) (start n : Z) :
  0 <= start -> 0 <= n -> start + ITEM_LENGTH * n <= len state ->
  isSorted state start (start + ITEM_LENGTH * n) = false ->
  forall k, 0 <= k < n ->
    slice (maybeSort state start (start + ITEM_LENGTH * n))
      (start + ITEM_LENGTH * k) (start + ITEM_LENGTH * k + ITEM_LENGTH) =
    slice state start (start + ITEM_LENGTH).
Proof.
  intros Hs Hn Hfit Hunsorted k Hk.
  pose proof (maybeSort_spec state start n Hs Hn Hfit) as H. cbn zeta in H.
  destruct H as (Hlen & _ & _).
  apply aget_ext.
  - rewrite !len_slice; unfold ITEM_LENGTH in *; lia.
  - intros f Hf. rewrite len_slice in Hf by (unfold ITEM_LENGTH in *; lia).
    rewrite !aget_slice by (unfold ITEM_LENGTH in *; lia).
    apply maybeSort_unsorted; trivial. unfold ITEM_LENGTH in *. lia.
Qed.

Lemma maybeSort_out_of_order_witness :
  slice (maybeSort [3; 1; 1; 1; 0; 1; 2; 2; 2; 0; 2; 3; 3; 3; 3] 0 15) 10 15 =
  [3; 1; 1; 1; 0].
Proof.
  apply (maybeSort_out_of_order [3; 1; 1; 1; 0; 1; 2; 2; 2; 0; 2; 3; 3; 3; 3] 0 3
           ltac:(lia) ltac:(lia) ltac:(vm_compute; discriminate)
           ltac:(reflexivity) 2 ltac:(lia)).
Defined.

(** ** [decodeInteger] *)

Lemma decodeInteger_loop_stop encoded : forall fuel pos value shift,
  (slen encoded - pos <= fuel)%nat ->
  exists q,
    snd (decodeInteger_loop fuel encoded pos value shift) = S q /\
    (pos <= q <= Nat.max pos (slen encoded))%nat /\
    (forall p, (pos <= p < q)%nat -> Z.land (digit_at encoded p) 32 <> 0) /\
    Z.land (digit_at encoded q) 32 = 0.
Proof.
  induction fuel as [|fuel IH]; intros pos value shift Hf;
    cbn [decodeInteger_loop]; fold (digit_at encoded pos).
  - assert (Hd : digit_at encoded pos = 0).
    { unfold digit_at. rewrite charCodeAt_outside by lia. reflexivity. }
    rewrite Hd. cbn [Z.land Z.eqb snd].
    exists pos. repeat split; try lia. rewrite Hd. reflexivity.
  - destruct (Z.eqb_spec (Z.land (digit_at encoded pos) 32) 0) as [He|Hne].
    + cbn [snd]. exists pos. repeat split; lia.
    + pose proof (continuation_inside encoded pos Hne) as Hin.
      destruct (IH (S pos) (or32 value (shl32 (Z.land (digit_at encoded pos) 31) shift))
                  (shift + 5) ltac:(lia)) as (q & Hq & Hr & Hc & Hl).
      exists q. split; [exact Hq|]. split; [lia|]. split; [|exact Hl].
      intros p Hp. destruct (Nat.eq_dec p pos) as [->|]; [exact Hne|].
      apply Hc. lia.
Qed.

(** X6.  [decodeInteger] reads on from [pos] up to and including the first
    digit without the continuation flag 32 and returns the position after
    it: it always moves forward, and it goes at most one position past the
    end of the string, where the missing character counts as such a digit.
    Read at or past the end, it gives 0. *)
Theorem decodeInteger_stops_at_final_digit (encoded : string) (pos : nat) :
  exists q,
    snd (decodeInteger_value encoded pos) = S q /\
    (pos <= q <= Nat.max pos (slen encoded))%nat /\
    (forall p, (pos <= p < q)%nat -> Z.land (digit_at encoded p) 32 <> 0) /\
    Z.land (digit_at encoded q) 32 = 0 /\
    ((slen encoded <= pos)%nat -> decodeInteger_value encoded pos = (0, S pos)).
Proof.
  destruct (decodeInteger_loop_stop encoded (slen encoded - pos) pos 0 0 ltac:(lia))
    as (q & Hq & Hr & Hc & Hl).
  exists q. rewrite decodeInteger_value_next.
  split; [exact Hq|]. split; [exact Hr|]. split; [exact Hc|]. split; [exact Hl|].
  intros Hout. unfold decodeInteger_value.
  replace (slen encoded - pos)%nat with 0%nat by lia.
  cbn [decodeInteger_loop]. rewrite charCodeAt_outside by lia. reflexivity.
Qed.

Lemma ToInt32_range z : - 2 ^ 31 <= ToInt32 z < 2 ^ 31.
Proof.
  unfold ToInt32. pose proof (Z.mod_pos_bound (z + 2 ^ 31) (2 ^ 32) ltac:(lia)). lia.
Qed.

Lemma ToUint32_range z : 0 <= ToUint32 z < 2 ^ 32.
Proof. unfold ToUint32. apply Z.mod_pos_bound. lia. Qed.

(** X7.  Whatever the digits, the integer [decodeInteger] computes fits a
    signed 32-bit integer, and what it stores at [state[index]] is that
    integer modulo 2^32; no other element of [state] changes. *)
Theorem decodeInteger_int32 (encoded : string) (pos : nat)
    (state : Uint32Array) (index : Z) :
  let value := fst (decodeInteger_value encoded pos) in
  let state' := snd (decodeInteger encoded pos state index) in
  - 2 ^ 31 <= value < 2 ^ 31 /\
  fst (decodeInteger encoded pos state index) = snd (decodeInteger_value encoded pos) /\
  List.length state' = List.length state /\
  (0 <= index < len state -> aget state' index = value mod 2 ^ 32) /\
  (forall j, j <> index -> aget state' j = aget state j).
Proof.
  cbn zeta. rewrite decodeInteger_eq. cbn [fst snd].
  split; [|split; [reflexivity|split; [|split]]].
  - unfold decodeInteger_value.
    destruct (decodeInteger_loop (slen encoded - pos) encoded pos 0 0) as [v p].
    cbn [fst].
    destruct (Z.land v 1 =? 0); [|apply ToInt32_range].
    unfold shru32. pose proof (ToUint32_range v).
    change (1 mod 32) with 1. rewrite Z.shiftr_div_pow2 by lia.
    change (2 ^ 1) with 2.
    Z.to_euclidean_division_equations. lia.
  - pose proof (len_aset state index (ToUint32 (fst (decodeInteger_value encoded pos)))) as H.
    unfold len in H. lia.
  - intros Hin. rewrite aget_aset_eq by exact Hin. reflexivity.
  - intros j Hj. apply aget_aset_neq. congruence.
Qed.

(** ** [decode]: what the buffer holds *)

Lemma ToUint32_uint32 z : uint32 (ToUint32 z).
Proof. unfold uint32, ToUint32. apply Z.mod_pos_bound. lia. Qed.

Lemma Forall_firstn_skipn {A} (P : A -> Prop) n (l : list A) :
  Forall P l -> Forall P (firstn n l) /\ Forall P (skipn n l).
Proof.
  intros H. apply Forall_app. rewrite firstn_skipn. exact H.
Qed.

Lemma Forall_aset (P : Z -> Prop) a i v :
  Forall P a -> P v -> Forall P (aset a i v).
Proof.
  intros Ha Hv. unfold aset.
  destruct ((0 <=? i) && (i <? len a)); [|exact Ha].
  apply Forall_app. split; [apply Forall_firstn_skipn; exact Ha|].
  constructor; [exact Hv|]. apply Forall_firstn_skipn. exact Ha.
Qed.

Lemma Forall_set_from (P : Z -> Prop) src : forall a off,
  Forall P a -> Forall P src -> Forall P (set_from a src off).
Proof.
  induction src as [|v src IH]; intros a off Ha Hs; cbn [set_from]; [exact Ha|].
  inversion Hs; subst. apply IH; [apply Forall_aset|]; assumption.
Qed.

Lemma Forall_slice (P : Z -> Prop) a lo hi : Forall P a -> Forall P (slice a lo hi).
Proof.
  intros H. unfold slice.
  apply Forall_firstn_skipn. apply Forall_firstn_skipn. exact H.
Qed.

Lemma Forall_reserve a pos count :
  Forall uint32 a -> Forall uint32 (reserve a pos count).
Proof.
  intros H. unfold reserve. destruct (pos + count <? len a); [exact H|].
  apply Forall_set_from; [|exact H].
  unfold new_array. apply Forall_forall. intros x Hx.
  apply repeat_spec in Hx. subst x. unfold uint32. lia.
Qed.

Lemma maybeSort_collect_Forall (Q : list Z -> Prop) state start end_ :
  Q (slice state start (start + ITEM_LENGTH)) ->
  forall fuel i segments,
  Forall Q segments -> Forall Q (maybeSort_collect fuel state start i end_ segments).
Proof.
  intros Hq. induction fuel as [|fuel IH]; intros i segments Hs;
    cbn [maybeSort_collect]; [exact Hs|].
  destruct (i <? end_); [|exact Hs].
  apply IH. apply Forall_app. split; [exact Hs|]. constructor; [exact Hq|constructor].
Qed.

Lemma maybeSort_write_Forall (P : Z -> Prop) : forall segments state start i,
  Forall P state -> Forall (Forall P) segments ->
  Forall P (maybeSort_write state segments start i).
Proof.
  induction segments as [|seg segments IH]; intros state start i Hs Hsegs;
    cbn [maybeSort_write]; [exact Hs|].
  inversion Hsegs; subst. apply IH; [|assumption].
  apply Forall_set_from; assumption.
Qed.

(** [maybeSort] only moves values of the array around. *)
Lemma maybeSort_Forall (P : Z -> Prop) state start end_ :
  Forall P state -> Forall P (maybeSort state start end_).
Proof.
  intros H. unfold maybeSort. destruct (isSorted state start end_); [exact H|].
  apply maybeSort_write_Forall; [exact H|].
  eapply Permutation_Forall;
    [apply (array_sort_perm (fun a => aget a 0))|].
  apply maybeSort_collect_Forall; [|constructor].
  apply Forall_slice. exact H.
Qed.

Lemma decode_record_Forall encoded s :
  Forall uint32 (d_decoded s) -> Forall uint32 (d_decoded (decode_record encoded s)).
Proof.
  intros H. apply (Forall_reserve _ (d_count s) ITEM_LENGTH) in H.
  unfold decode_record, add_assign.
  repeat (rewrite decodeInteger_eq; cbn beta iota zeta).
  destruct (hasMoreMappings encoded (snd (decodeInteger_value encoded (d_pos s))));
    cbn [negb].
  - destruct (hasMoreMappings encoded _); cbn [negb d_decoded];
      repeat (apply Forall_aset; [|apply ToUint32_uint32]); exact H.
  - cbn [d_decoded]. repeat (apply Forall_aset; [|apply ToUint32_uint32]). exact H.
Qed.

Lemma decode_loop_Forall encoded : forall fuel s,
  Forall uint32 (d_decoded s) ->
  Forall uint32 (d_decoded (decode_loop fuel encoded s)).
Proof.
  induction fuel as [|fuel IH]; intros s H; cbn [decode_loop]; [exact H|].
  destruct (d_pos s <? slen encoded)%nat; [|exact H].
  apply IH. rewrite decode_step_branch.
  destruct (branch_of (charCodeAt encoded (d_pos s))); cbn [d_decoded].
  - exact H.
  - apply maybeSort_Forall. exact H.
  - apply decode_record_Forall. exact H.
Qed.

Lemma decode_run_uint32 encoded lines :
  Forall uint32 (d_decoded (decode_run encoded lines)).
Proof.
  apply decode_loop_Forall. unfold decode_init. cbn [d_decoded].
  unfold new_array. apply Forall_forall. intros x Hx.
  apply repeat_spec in Hx. subst x. unfold uint32. lia.
Qed.

(** X8.  Every element of the buffer [decode] returns is an unsigned 32-bit
    integer, whatever the input and whatever [lines] holds. *)
Theorem decode_buffer_uint32 (encoded : string) (lines : list Z) :
  Forall uint32 (fst (decode encoded lines)).
Proof.
  unfold decode. cbn [fst].
  (* the final [subarray] and the final [maybeSort] keep the elements *)
  apply Forall_slice. apply maybeSort_Forall.
  apply decode_run_uint32.
Qed.

(** ** [decode]: one record *)

Lemma decode_record_above encoded s j :
  d_count s + ITEM_LENGTH <= j ->
  aget (d_decoded (decode_record encoded s)) j = aget (d_decoded s) j.
Proof.
  intros Hj. unfold ITEM_LENGTH in Hj.
  rewrite <- (aget_reserve (d_decoded s) (d_count s) ITEM_LENGTH j).
  unfold decode_record, add_assign.
  repeat (rewrite decodeInteger_eq; cbn beta iota zeta).
  destruct (hasMoreMappings encoded (snd (decodeInteger_value encoded (d_pos s))));
    cbn [negb].
  - destruct (hasMoreMappings encoded _); cbn [negb d_decoded];
      rewrite !aget_aset_neq by lia; reflexivity.
  - cbn [d_decoded]. rewrite !aget_aset_neq by lia. reflexivity.
Qed.

Lemma decode_step_zero encoded s :
  decode_inv s -> zero_from (d_decoded s) (d_count s) ->
  zero_from (d_decoded (decode_step encoded s)) (d_count (decode_step encoded s)).
Proof.
  intros Hinv Hz. rewrite decode_step_branch.
  destruct (branch_of (charCodeAt encoded (d_pos s))); cbn [d_decoded d_count].
  - exact Hz.
  - pose proof Hinv as [(l & Hl) Hok _ (n & Hn & Hc) Hroom _].
    pose proof (lines_ok_le_last _ _ Hok (d_lastLineStart s)) as Hle.
    rewrite Hl in Hle at 1.
    specialize (Hle ltac:(apply in_or_app; right; left; reflexivity)).
    pose proof (maybeSort_spec (d_decoded s) (d_lastLineStart s) n
                  ltac:(lia) Hn ltac:(lia)) as H.
    rewrite <- Hc in H. cbn zeta in H. destruct H as (_ & H2 & _).
    intros j Hj. rewrite H2 by lia. apply Hz. exact Hj.
  - destruct Hinv as [_ _ _ _ Hroom Hcap].
    pose proof (decode_record_spec encoded s Hcap Hroom) as H.
    cbn zeta in H. destruct H as (_ & _ & _ & H4 & _).
    intros j Hj. rewrite H4 in Hj. rewrite decode_record_above by exact Hj.
    apply Hz. unfold ITEM_LENGTH in *. lia.
Qed.

Lemma decode_after_inv rounds encoded :
  let s := decode_after rounds encoded in
  decode_inv s /\ zero_from (d_decoded s) (d_count s) /\ 0 <= d_count s.
Proof.
  cbn zeta. unfold decode_after.
  assert (H : forall fuel s,
            decode_inv s -> zero_from (d_decoded s) (d_count s) ->
            decode_inv (decode_loop fuel encoded s) /\
            zero_from (d_decoded (decode_loop fuel encoded s))
              (d_count (decode_loop fuel encoded s))).
  { induction fuel as [|fuel IH]; intros s Hinv Hz; cbn [decode_loop]; [auto|].
    destruct (d_pos s <? slen encoded)%nat; [|auto].
    apply IH; [apply decode_step_inv|apply decode_step_zero]; assumption. }
  destruct (H rounds (decode_init []) decode_inv_init) as [Hinv Hz].
  { intros j _. unfold decode_init. cbn [d_decoded]. apply aget_new_array. }
  split; [exact Hinv|]. split; [exact Hz|].
  set (s := decode_loop rounds encoded (decode_init [])) in *.
  destruct Hinv as [(l & Hl) Hok _ (n & Hn & Hc) _ _].
  pose proof (lines_ok_le_last _ _ Hok (d_lastLineStart s)) as Hle.
  rewrite Hl in Hle at 1.
  specialize (Hle ltac:(apply in_or_app; right; left; reflexivity)).
  unfold ITEM_LENGTH in *. lia.
Qed.

Lemma ToUint32_sum a b : ToUint32 (ToUint32 a + b) = ToUint32 (b + a).
Proof.
  unfold ToUint32. rewrite Zplus_mod_idemp_l. f_equal. lia.
Qed.

(** What one record leaves in the buffer and in the accumulators. *)
Lemma decode_record_content encoded s :
  decode_inv s -> zero_from (d_decoded s) (d_count s) -> 0 <= d_count s ->
  let c := d_count s in
  let s' := decode_record encoded s in
  let d := d_decoded s' in
  let next p := snd (decodeInteger_value encoded p) in
  let val p := fst (decodeInteger_value encoded p) in
  let p0 := d_pos s in
  let p1 := next p0 in
  let p2 := next p1 in
  let p3 := next p2 in
  let p4 := next p3 in
  d_generatedColumn s' = ToUint32 (val p0) + d_generatedColumn s /\
  aget d c = ToUint32 (d_generatedColumn s') /\
  (hasMoreMappings encoded p1 = false ->
   aget d (c + 1) = 0 /\ aget d (c + 2) = 0 /\ aget d (c + 3) = 0 /\
   aget d (c + 4) = 0 /\
   d_sourcesIndex s' = d_sourcesIndex s /\ d_sourceLine s' = d_sourceLine s /\
   d_sourceColumn s' = d_sourceColumn s /\ d_namesIndex s' = d_namesIndex s) /\
  (hasMoreMappings encoded p1 = true ->
   d_sourcesIndex s' = ToUint32 (val p1) + d_sourcesIndex s /\
   d_sourceLine s' = ToUint32 (val p2) + d_sourceLine s /\
   d_sourceColumn s' = ToUint32 (val p3) + d_sourceColumn s /\
   aget d (c + 1) = ToUint32 (d_sourcesIndex s') /\
   aget d (c + 2) = ToUint32 (d_sourceLine s') /\
   aget d (c + 3) = ToUint32 (d_sourceColumn s') /\
   (hasMoreMappings encoded p4 = false ->
    aget d (c + 4) = 0 /\ d_namesIndex s' = d_namesIndex s) /\
   (hasMoreMappings encoded p4 = true ->
    d_namesIndex s' = ToUint32 (val p4) + d_namesIndex s /\
    aget d (c + 4) = ToUint32 (d_namesIndex s'))).
Proof.
  intros [_ _ _ _ Hroom Hcap] Hz H0. cbn zeta.
  pose proof (len_reserve (d_decoded s) (d_count s) ITEM_LENGTH Hcap Hroom) as [Hr1 _].
  assert (Hb0 : forall j, d_count s <= j ->
            aget (reserve (d_decoded s) (d_count s) ITEM_LENGTH) j = 0).
  { intros j Hj. rewrite aget_reserve. apply Hz. exact Hj. }
  unfold decode_record, add_assign.
  repeat (rewrite decodeInteger_eq; cbn beta iota zeta).
  set (b0 := reserve (d_decoded s) (d_count s) ITEM_LENGTH) in *.
  unfold ITEM_LENGTH in Hr1.
  set (p1 := snd (decodeInteger_value encoded (d_pos s))).
  set (p2 := snd (decodeInteger_value encoded p1)).
  set (p3 := snd (decodeInteger_value encoded p2)).
  set (p4 := snd (decodeInteger_value encoded p3)).
  destruct (hasMoreMappings encoded p1) eqn:E1; cbn [negb];
    [destruct (hasMoreMappings encoded p4) eqn:E4; cbn [negb]|];
    cbn [d_generatedColumn d_sourcesIndex d_sourceLine d_sourceColumn d_namesIndex
         d_decoded];
    rewrite <- ?Z.add_assoc;
    change (1 + 1) with 2; change (1 + 2) with 3; change (1 + 3) with 4;
    repeat first
      [ rewrite aget_aset_eq by (rewrite ?len_aset; lia)
      | rewrite aget_aset_neq by lia ];
    rewrite ?Hb0 by lia.
  - split; [reflexivity|]. split; [reflexivity|]. split; [discriminate|].
    intros _. do 6 (split; [reflexivity|]). split; [discriminate|].
    intros _. split; reflexivity.
  - split; [reflexivity|]. split; [reflexivity|]. split; [discriminate|].
    intros _. do 6 (split; [reflexivity|]). split; [|discriminate].
    intros _. split; reflexivity.
  - split; [reflexivity|]. split; [reflexivity|]. split; [|discriminate].
    intros _. repeat split; reflexivity.
Qed.

(** X9.  A field a segment does not give is 0 in the buffer.  Whenever the
    loop of [decode] decodes a record at [count]: after a segment of one
    value the fields 1 to 4 of the record are 0 and the record materialises
    as the 1-tuple of its generated column; after a segment of four values
    field 4 is 0, so the record never materialises as a 5-tuple.  The
    skipped fields are never written: they are 0 because the buffer is
    zero-filled from [count] on. *)
Theorem decode_absent_fields_zero (encoded : string) (rounds : nat) :
  let s := decode_after rounds encoded in
  let c := d_count s in
  let d := d_decoded (decode_record encoded s) in
  let next p := snd (decodeInteger_value encoded p) in
  let p1 := next (d_pos s) in
  let p4 := next (next (next p1)) in
  zero_from (d_decoded s) c /\
  (hasMoreMappings encoded p1 = false ->
   aget d (c + 1) = 0 /\ aget d (c + 2) = 0 /\ aget d (c + 3) = 0 /\
   aget d (c + 4) = 0 /\ segmentify d c = [aget d c]) /\
  (hasMoreMappings encoded p1 = true -> hasMoreMappings encoded p4 = false ->
   aget d (c + 4) = 0 /\ (List.length (segmentify d c) <= 4)%nat).
Proof.
  cbn zeta.
  destruct (decode_after_inv rounds encoded) as (Hinv & Hz & H0).
  pose proof (decode_record_content encoded _ Hinv Hz H0) as H. cbn zeta in H.
  destruct H as (_ & _ & Hgap & Hsrc).
  split; [exact Hz|]. split.
  - intros E. destruct (Hgap E) as (H1 & H2 & H3 & H4 & _).
    repeat (split; [assumption|]). unfold segmentify. rewrite H1. reflexivity.
  - intros E1 E4. destruct (Hsrc E1) as (_ & _ & _ & _ & _ & _ & Hno & _).
    destruct (Hno E4) as [H4 _]. split; [exact H4|].
    unfold segmentify. rewrite H4.
    destruct (aget _ (d_count (decode_after rounds encoded) + 1) =? 0); cbn; lia.
Qed.


(** ** [decode]: the size of its results *)

Lemma count_occ_skipn_le (l : list Z) x : forall p q,
  (p <= q)%nat ->
  (count_occ Z.eq_dec (skipn q l) x <= count_occ Z.eq_dec (skipn p l) x)%nat.
Proof.
  intros p q Hpq.
  replace q with ((q - p) + p)%nat by lia.
  rewrite <- skipn_skipn.
  rewrite <- (firstn_skipn (q - p) (skipn p l)) at 2.
  rewrite count_occ_app. lia.
Qed.

(** The decoder closes a line at a [;] only, and it decodes a record from
    one character at least. *)
Lemma line_record_counts_loop_bounds encoded : forall fuel s current,
  decode_inv s ->
  (List.length (line_record_counts_loop fuel encoded s current) <=
   S (count_occ Z.eq_dec (skipn (d_pos s) (codes encoded)) 59%Z))%nat /\
  (list_sum (line_record_counts_loop fuel encoded s current) <=
   current + (slen encoded - d_pos s))%nat.
Proof.
  induction fuel as [|fuel IH]; intros s current Hinv;
    cbn [line_record_counts_loop].
  - cbn. lia.
  - destruct (Nat.ltb_spec (d_pos s) (slen encoded)) as [Hlt|Hge]; [|cbn; lia].
    pose proof (decode_step_inv encoded s Hinv) as Hinv'.
    pose proof (decode_step_pos encoded s Hinv) as Hpos.
    destruct (charCodeAt encoded (d_pos s)) as [c|] eqn:E.
    2:{ rewrite charCodeAt_codes in E. apply nth_error_None in E.
        rewrite codes_length in E. lia. }
    pose proof (branch_of_cases c) as Hbr.
    pose proof (count_occ_skipn_le (codes encoded) 59 _ _ (Nat.lt_le_incl _ _ Hpos)) as Hmono.
    destruct (branch_of (Some c)).
    + destruct (IH (decode_step encoded s) current Hinv') as [IH1 IH2]. clear IH. lia.
    + subst c.
      destruct (IH (decode_step encoded s) 0%nat Hinv') as [IH1 IH2].
      assert (Hs : skipn (d_pos s) (codes encoded) =
                   59 :: skipn (S (d_pos s)) (codes encoded))
        by (apply skipn_charCodeAt; exact E).
      assert (Hstep : d_pos (decode_step encoded s) = S (d_pos s)).
      { rewrite decode_step_branch, E. reflexivity. }
      rewrite Hstep in *. rewrite Hs. cbn [List.length count_occ].
      destruct (Z.eq_dec 59 59); [|contradiction]. clear IH.
      unfold list_sum in *. cbn [fold_right]. lia.
    + destruct (IH (decode_step encoded s) (S current) Hinv') as [IH1 IH2]. clear IH. lia.
Qed.

Lemma line_record_counts_loop_nonempty encoded : forall fuel s current,
  (1 <= List.length (line_record_counts_loop fuel encoded s current))%nat.
Proof.
  induction fuel as [|fuel IH]; intros s current;
    cbn [line_record_counts_loop]; [cbn [List.length]; lia|].
  destruct (d_pos s <? slen encoded)%nat; [|cbn [List.length]; lia].
  destruct (branch_of (charCodeAt encoded (d_pos s))); cbn [List.length];
    try apply IH. clear IH. lia.
Qed.

Lemma offsets_last counts : forall start,
  last (start :: offsets start counts) 0 =
  start + ITEM_LENGTH * Z.of_nat (list_sum counts).
Proof.
  induction counts as [|c counts IH]; intros start.
  - cbn. unfold ITEM_LENGTH. lia.
  - change (list_sum (c :: counts)) with (c + list_sum counts)%nat.
    cbn [offsets].
    change (last (start :: ?x :: ?l) 0) with (last (x :: l) 0).
    rewrite IH. unfold ITEM_LENGTH. lia.
Qed.

Lemma decode_lines_offsets encoded :
  snd (decode encoded []) = 0 :: offsets 0 (line_record_counts encoded).
Proof.
  pose proof (decode_spec encoded) as H. cbn zeta in H.
  destruct H as (_ & Hlines & _).
  pose proof (decode_loop_lines encoded (slen encoded) (decode_init []) 0
                decode_inv_init ltac:(cbn; unfold ITEM_LENGTH; lia)) as Ht.
  cbn zeta in Ht. fold (decode_run encoded []) in Ht.
  fold (line_record_counts encoded) in Ht.
  rewrite <- Hlines in Ht. exact Ht.
Qed.

(** X11.  For every input, well formed or not, the line table has at least
    two entries and at most two more than the input has [;]: the decoder
    closes a line at a [;] and at the end of the input, nowhere else. *)
Theorem decode_line_count_bounds (encoded : string) :
  (2 <= List.length (snd (decode encoded [])) <= semicolons encoded + 2)%nat.
Proof.
  rewrite decode_lines_offsets. cbn [List.length]. rewrite offsets_length.
  destruct (line_record_counts_loop_bounds encoded (slen encoded) (decode_init []) 0
              decode_inv_init) as [H _].
  fold (line_record_counts encoded) in H.
  change (d_pos (decode_init [])) with 0%nat in H. cbn [skipn] in H.
  unfold semicolons.
  pose proof (line_record_counts_loop_nonempty encoded (slen encoded)
                (decode_init []) 0) as H0.
  fold (line_record_counts encoded) in H0. lia.
Qed.

(** X12.  The buffer holds [ITEM_LENGTH] integers for each record decoded,
    and a record takes at least one character of the input: the length of
    the buffer is a multiple of 5 and at most 5 times the length of the
    input. *)
Theorem decode_buffer_size (encoded : string) :
  let mappings := fst (decode encoded []) in
  len mappings =
    ITEM_LENGTH * Z.of_nat (list_sum (line_record_counts encoded)) /\
  len mappings mod ITEM_LENGTH = 0 /\
  len mappings <= ITEM_LENGTH * Z.of_nat (slen encoded).
Proof.
  cbn zeta.
  pose proof (decode_spec encoded) as H. cbn zeta in H.
  destruct H as (_ & Hlines & Hlen & _).
  assert (Hsum : len (fst (decode encoded [])) =
                 ITEM_LENGTH * Z.of_nat (list_sum (line_record_counts encoded))).
  { rewrite Hlen.
    pose proof (offsets_last (line_record_counts encoded) 0) as Hl.
    rewrite <- decode_lines_offsets, Hlines, last_last in Hl. lia. }
  destruct (line_record_counts_loop_bounds encoded (slen encoded) (decode_init []) 0
              decode_inv_init) as [_ H].
  fold (line_record_counts encoded) in H.
  change (d_pos (decode_init [])) with 0%nat in H.
  split; [exact Hsum|]. rewrite Hsum. unfold ITEM_LENGTH. split.
  - rewrite Z.mul_comm. apply Z.mod_mul. lia.
  - lia.
Qed.

(** ** [decodedMappings] *)

Lemma record_starts_nil lo hi : hi <= lo -> record_starts lo hi = [].
Proof.
  intros H. unfold record_starts.
  replace (Z.to_nat ((hi - lo + ITEM_LENGTH - 1) / ITEM_LENGTH)) with 0%nat;
    [reflexivity|].
  unfold ITEM_LENGTH.
  assert ((hi - lo + 5 - 1) / 5 <= 0); [|lia].
  apply Z.lt_succ_r. apply Z.div_lt_upper_bound; lia.
Qed.

Lemma record_starts_cons lo hi :
  lo < hi -> record_starts lo hi = lo :: record_starts (lo + ITEM_LENGTH) hi.
Proof.
  intros H. unfold record_starts, ITEM_LENGTH.
  replace (hi - lo + 5 - 1) with ((hi - (lo + 5) + 5 - 1) + 1 * 5) by lia.
  rewrite Z.div_add by lia.
  assert (0 <= (hi - (lo + 5) + 5 - 1) / 5) by (apply Z.div_pos; lia).
  rewrite Z2Nat.inj_add by lia.
  change (Z.to_nat 1) with 1%nat. rewrite Nat.add_1_r.
  cbn [seq map]. f_equal; [lia|].
  rewrite <- seq_shift, map_map. apply map_ext. intros k. lia.
Qed.

Lemma record_starts_snoc lo q :
  0 <= q ->
  record_starts lo (lo + ITEM_LENGTH * q + ITEM_LENGTH) =
  record_starts lo (lo + ITEM_LENGTH * q) ++ [lo + ITEM_LENGTH * q].
Proof.
  intros H. unfold record_starts, ITEM_LENGTH.
  replace (lo + 5 * q + 5 - lo + 5 - 1) with (4 + (q + 1) * 5) by lia.
  replace (lo + 5 * q - lo + 5 - 1) with (4 + q * 5) by lia.
  rewrite !Z.div_add by lia. change (4 / 5) with 0. rewrite !Z.add_0_l.
  rewrite Z2Nat.inj_add by lia. change (Z.to_nat 1) with 1%nat.
  rewrite Nat.add_1_r, seq_S, map_app. cbn [map Nat.add].
  rewrite Z2Nat.id by lia. reflexivity.
Qed.

Lemma record_starts_nonempty lo hi : lo < hi -> record_starts lo hi <> [].
Proof. intros H. rewrite record_starts_cons by exact H. discriminate. Qed.

Lemma decodedMappings_while_flat lineIndices i : forall fuel s,
  let s' := decodedMappings_while fuel lineIndices i s in
  List.concat (dm_decoded s') ++ dm_line s' = List.concat (dm_decoded s) ++ dm_line s.
Proof.
  induction fuel as [|fuel IH]; intros s; cbn zeta; cbn [decodedMappings_while];
    [reflexivity|].
  destruct (dm_lineIndex s) as [lineIndex|]; [|reflexivity].
  destruct (i =? lineIndex); [|reflexivity].
  specialize (IH (mkDm (dm_decoded s ++ [dm_line s]) [] (S (dm_lineIndicesIndex s))
                    (nth_error lineIndices (S (dm_lineIndicesIndex s))))).
  cbn zeta in IH. rewrite IH. cbn [dm_decoded dm_line].
  rewrite concat_app. cbn [List.concat]. rewrite !app_nil_r. reflexivity.
Qed.

Lemma decodedMappings_for_flat mappings lineIndices wfuel : forall fuel i s,
  len mappings - i <= Z.of_nat fuel ->
  let s' := decodedMappings_for fuel wfuel mappings lineIndices i s in
  List.concat (dm_decoded s') ++ dm_line s' =
  (List.concat (dm_decoded s) ++ dm_line s) ++
    range_segments mappings i (len mappings).
Proof.
  unfold range_segments.
  induction fuel as [|fuel IH]; intros i s Hf; cbn zeta;
    cbn [decodedMappings_for].
  - rewrite record_starts_nil by lia. cbn [map]. rewrite app_nil_r. reflexivity.
  - destruct (Z.ltb_spec i (len mappings)) as [Hlt|Hge].
    + cbn zeta. rewrite IH by (unfold ITEM_LENGTH; lia).
      cbn [dm_decoded dm_line].
      rewrite (record_starts_cons i (len mappings) Hlt). cbn [map].
      rewrite app_assoc.
      rewrite (decodedMappings_while_flat lineIndices i wfuel s).
      rewrite <- !app_assoc. reflexivity.
    + rewrite record_starts_nil by lia. cbn [map]. rewrite app_nil_r. reflexivity.
Qed.

(** Every segment [decodedMappings] returns is [segmentify] at an index of
    the buffer. *)
Lemma decodedMappings_segments (this : EncodedSourceMapImpl) line seg :
  In line (decodedMappings this) -> In seg line ->
  exists i, seg = segmentify (_mappings this) i.
Proof.
  intros Hline Hseg.
  assert (Hin : In seg (List.concat (decodedMappings this))).
  { apply in_concat. exists line. split; assumption. }
  unfold decodedMappings, decodedMappings_fuel in Hin. cbn zeta in Hin.
  rewrite concat_app in Hin. cbn [List.concat] in Hin. rewrite app_nil_r in Hin.
  rewrite (decodedMappings_for_flat (_mappings this) (_lineIndices this)
             (S (List.length (_lineIndices this)))
             (List.length (_mappings this)) 0
             (mkDm [] [] 1 (nth_error (_lineIndices this) 1)))
    in Hin by (unfold len; lia).
  cbn [dm_decoded dm_line List.concat app] in Hin. unfold range_segments in Hin.
  apply in_map_iff in Hin. destruct Hin as (i & <- & _). exists i. reflexivity.
Qed.

(** X13.  Whatever the line table holds, [decodedMappings] returns one
    segment for each record of the buffer, in buffer order: flattened, its
    result is [segmentify] at the indices 0, 5, 10, ... below
    [mappings.length].  No record is left out and none comes twice. *)
Theorem decodedMappings_flat (this : EncodedSourceMapImpl) :
  List.concat (decodedMappings this) =
  range_segments (_mappings this) 0 (len (_mappings this)).
Proof.
  unfold decodedMappings, decodedMappings_fuel. cbn zeta.
  rewrite concat_app. cbn [List.concat]. rewrite app_nil_r.
  rewrite (decodedMappings_for_flat (_mappings this) (_lineIndices this)
             (S (List.length (_lineIndices this)))
             (List.length (_mappings this)) 0
             (mkDm [] [] 1 (nth_error (_lineIndices this) 1))).
  - reflexivity.
  - unfold len. lia.
Qed.

(** ** [decodedMappings]: the lines it returns *)

(** The loop of [decodedMappings] over a line table as [decode] builds it:
    [lineIndices] holds [n + 1] non-decreasing record boundaries and ends at
    the length of [mappings]. *)
Section DecodedMappingsLines.

Variable mappings : Uint32Array.
Variable lineIndices : list Z.
Variable n : nat.

Hypothesis Hlen : List.length lineIndices = S n.
Hypothesis Hmul : forall j, (j <= n)%nat ->
  exists q, 0 <= q /\ nth j lineIndices 0 = ITEM_LENGTH * q.
Hypothesis Hmono : forall j, (j < n)%nat ->
  nth j lineIndices 0 <= nth (S j) lineIndices 0.
Hypothesis Hlast : nth n lineIndices 0 = len mappings.

Lemma line_table_mono : forall j j', (j <= j')%nat -> (j' <= n)%nat ->
  nth j lineIndices 0 <= nth j' lineIndices 0.
Proof.
  intros j j' Hj. induction Hj as [|j' Hj IH]; intros Hn; [lia|].
  apply Z.le_trans with (nth j' lineIndices 0); [apply IH; lia|apply Hmono; lia].
Qed.

Lemma decodedMappings_while_inv i : forall fuel j s,
  dm_inv mappings lineIndices i j s ->
  i < len mappings ->
  (n - j <= fuel)%nat ->
  let s' := decodedMappings_while fuel lineIndices i s in
  exists j', (j <= j')%nat /\ dm_inv mappings lineIndices i j' s' /\
             i < nth (S j') lineIndices 0.
Proof.
  induction fuel as [|fuel IH]; intros j s (Hidx & Hj & Hli & Hi & Hd & Hl) Hlt Hf;
    cbn zeta.
  - (* no round left: the line [j] is the last one, so [i] is below its end *)
    exfalso. rewrite Hlen in Hj. lia.
  - cbn [decodedMappings_while]. rewrite Hli.
    rewrite (nth_error_nth' lineIndices 0 Hj).
    destruct (Z.eqb_spec i (nth (S j) lineIndices 0)) as [He|Hne].
    + assert (Hjn : (S j < n)%nat).
      { rewrite Hlen in Hj.
        destruct (Nat.eq_dec (S j) n) as [E|E]; [|lia].
        rewrite E, Hlast in He. lia. }
      destruct (IH (S j)
                  (mkDm (dm_decoded s ++ [dm_line s]) [] (S (dm_lineIndicesIndex s))
                     (nth_error lineIndices (S (dm_lineIndicesIndex s)))))
        as (j' & Hj' & Hinv' & Hlt'); [|exact Hlt|lia|].
      * unfold dm_inv. cbn [dm_decoded dm_line dm_lineIndicesIndex dm_lineIndex].
        rewrite Hidx. split; [reflexivity|]. split; [rewrite Hlen; lia|].
        split; [reflexivity|]. split.
        { split; [lia|]. rewrite He. apply Hmono. lia. }
        split.
        { rewrite seq_S, map_app, Hd, Hl, He. reflexivity. }
        { unfold range_segments. rewrite record_starts_nil by lia. reflexivity. }
      * exists j'. split; [lia|]. split; [exact Hinv'|exact Hlt'].
    + exists j. split; [lia|]. split; [|lia].
      unfold dm_inv. repeat (split; trivial); lia.
Qed.

Lemma decodedMappings_for_inv wfuel : (n <= wfuel)%nat ->
  forall fuel i j s,
  dm_inv mappings lineIndices i j s ->
  (exists q, 0 <= q /\ i = ITEM_LENGTH * q) ->
  (j = 0%nat \/ nth j lineIndices 0 < i) ->
  len mappings - i <= Z.of_nat fuel ->
  let s' := decodedMappings_for fuel wfuel mappings lineIndices i s in
  exists j', dm_inv mappings lineIndices (len mappings) j' s' /\
             (j' = 0%nat \/ nth j' lineIndices 0 < len mappings).
Proof.
  intros Hw.
  assert (Hend : forall i j s, dm_inv mappings lineIndices i j s ->
            len mappings <= i -> i = len mappings).
  { intros i j s (_ & Hj & _ & Hi & _) Hge.
    rewrite Hlen in Hj.
    pose proof (line_table_mono (S j) n ltac:(lia) ltac:(lia)) as Hm.
    rewrite Hlast in Hm. lia. }
  induction fuel as [|fuel IH]; intros i j s Hinv Hq Hhead Hf; cbn zeta;
    cbn [decodedMappings_for].
  - exists j. pose proof (Hend i j s Hinv ltac:(lia)) as ->. split; assumption.
  - destruct (Z.ltb_spec i (len mappings)) as [Hlt|Hge].
    2:{ exists j. pose proof (Hend i j s Hinv Hge) as ->. split; assumption. }
    cbn zeta.
    destruct (decodedMappings_while_inv i wfuel j s Hinv Hlt ltac:(lia))
      as (j' & Hj' & (Hidx & Hjl & Hli & Hi & Hd & Hl) & Hlt').
    apply (IH (i + ITEM_LENGTH) j').
    + unfold dm_inv. cbn [dm_decoded dm_line dm_lineIndicesIndex dm_lineIndex].
      rewrite Hlen in Hjl.
      destruct Hq as (q & Hq & ->).
      destruct (Hmul (S j') ltac:(lia)) as (q1 & Hq1 & E1).
      destruct (Hmul j' ltac:(lia)) as (q0 & Hq0 & E0).
      split; [exact Hidx|]. split; [rewrite Hlen; lia|]. split; [exact Hli|].
      split; [unfold ITEM_LENGTH in *; lia|]. split; [exact Hd|].
      rewrite Hl. unfold range_segments.
      replace (ITEM_LENGTH * q) with (nth j' lineIndices 0 + ITEM_LENGTH * (q - q0))
        by (rewrite E0; unfold ITEM_LENGTH; lia).
      rewrite record_starts_snoc by (unfold ITEM_LENGTH in *; lia).
      rewrite map_app. reflexivity.
    + destruct Hq as (q & Hq & ->). exists (q + 1).
      unfold ITEM_LENGTH. split; lia.
    + right. unfold ITEM_LENGTH. lia.
    + unfold ITEM_LENGTH. lia.
Qed.

Lemma decodedMappings_for_lines this :
  _mappings this = mappings -> _lineIndices this = lineIndices ->
  (1 <= n)%nat -> nth 0 lineIndices 0 = 0 ->
  exists k, (1 <= k <= n)%nat /\
    decodedMappings this = map (line_segments this) (seq 0 k) /\
    (forall line, (k <= line)%nat -> (line < n)%nat ->
       line_start this line = line_end this line) /\
    (k = 1%nat \/ line_start this (k - 1) < line_end this (k - 1)).
Proof.
  intros Hm Hl Hn H0.
  unfold decodedMappings, decodedMappings_fuel. cbn zeta. rewrite Hm, Hl.
  destruct (decodedMappings_for_inv (S (List.length lineIndices))
              ltac:(rewrite Hlen; lia)
              (List.length mappings) 0 0%nat
              (mkDm [] [] 1 (nth_error lineIndices 1)))
    as (j & (Hidx & Hj & Hli & Hi & Hd & Hline) & Hhead).
  - unfold dm_inv. cbn [dm_decoded dm_line dm_lineIndicesIndex dm_lineIndex].
    split; [reflexivity|]. split; [rewrite Hlen; lia|]. split; [reflexivity|].
    split.
    { rewrite H0. destruct (Hmul 1%nat Hn) as (q & Hq & ->).
      unfold ITEM_LENGTH. lia. }
    split; [reflexivity|].
    unfold range_segments. rewrite record_starts_nil by lia. reflexivity.
  - exists 0. unfold ITEM_LENGTH. lia.
  - left. reflexivity.
  - unfold len. lia.
  - rewrite Hlen in Hj.
    assert (Hend : nth (S j) lineIndices 0 = len mappings).
    { pose proof (line_table_mono (S j) n ltac:(lia) ltac:(lia)) as Hmn.
      rewrite Hlast in Hmn. lia. }
    exists (S j). split; [lia|]. split; [|split].
    + rewrite Hd, Hline, seq_S, map_app. cbn [map Nat.add].
      unfold line_segments, line_start, line_end. rewrite Hm, Hl, Hend.
      reflexivity.
    + intros line Hk Hln. unfold line_start, line_end. rewrite Hl.
      pose proof (line_table_mono (S j) line ltac:(lia) ltac:(lia)).
      pose proof (line_table_mono line (S line) ltac:(lia) ltac:(lia)).
      pose proof (line_table_mono (S line) n ltac:(lia) ltac:(lia)).
      rewrite Hlast in *. lia.
    + unfold line_start, line_end. rewrite Hl.
      replace (S j - 1)%nat with j by lia. rewrite Hend.
      destruct Hhead as [->|Hh]; [left; reflexivity|right; exact Hh].
Qed.

End DecodedMappingsLines.

Lemma map_ok_line_table this :
  map_ok this ->
  exists n, (1 <= n)%nat /\ List.length (_lineIndices this) = S n /\
    (forall j, (j <= n)%nat ->
       exists q, 0 <= q /\ nth j (_lineIndices this) 0 = ITEM_LENGTH * q) /\
    (forall j, (j < n)%nat ->
       nth j (_lineIndices this) 0 <= nth (S j) (_lineIndices this) 0) /\
    nth n (_lineIndices this) 0 = len (_mappings this) /\
    nth 0 (_lineIndices this) 0 = 0.
Proof.
  intros [Hok Hhd Hlast Htwo].
  set (l := _lineIndices this) in *.
  exists (List.length l - 1)%nat.
  assert (H0 : nth 0 l 0 = 0) by (destruct l; [reflexivity|exact Hhd]).
  split; [lia|]. split; [lia|]. split; [|split; [|split; [|exact H0]]].
  - intros j. induction j as [|j IH]; intros Hj.
    + exists 0. rewrite H0. unfold ITEM_LENGTH. lia.
    + destruct (IH ltac:(lia)) as (q & Hq & E).
      destruct (lines_ok_nth _ _ Hok j ltac:(lia)) as (_ & (m & Hm & E') & _).
      exists (q + m). rewrite E', E. unfold ITEM_LENGTH. lia.
  - intros j Hj.
    destruct (lines_ok_nth _ _ Hok j ltac:(lia)) as (_ & (m & Hm & E') & _).
    rewrite E'. unfold ITEM_LENGTH. lia.
  - rewrite <- Hlast.
    destruct l as [|x l'] eqn:E using rev_ind; [cbn in Htwo; lia|].
    rewrite last_last, length_app. cbn [List.length].
    replace (List.length l' + 1 - 1)%nat with (List.length l') by lia.
    rewrite app_nth2 by lia. rewrite Nat.sub_diag. reflexivity.
Qed.

(** X14.  The lines [decodedMappings] returns for a constructed map: there
    is a number [k] of lines, at least 1 and at most the number of generated
    lines of the line table, such that the result is the segments of line 0,
    line 1, ..., line [k - 1], each read off its range of the line table;
    the generated lines from [k] on are empty and are not returned; and
    line [k - 1] holds a record unless [k] is 1. *)
Theorem decodedMappings_lines (encoded : string) :
  let m := new_EncodedSourceMapImpl encoded in
  exists k, (1 <= k < List.length (_lineIndices m))%nat /\
    decodedMappings m = map (line_segments m) (seq 0 k) /\
    (forall line, (k <= line)%nat -> known_line m line ->
       line_start m line = line_end m line /\ line_segments m line = []) /\
    (k = 1%nat \/ line_segments m (k - 1) <> []).
Proof.
  cbn zeta. set (m := new_EncodedSourceMapImpl encoded).
  destruct (map_ok_line_table m (new_map_ok encoded))
    as (n & Hn & Hlen & Hmul & Hmono & Hlast & H0).
  destruct (decodedMappings_for_lines (_mappings m) (_lineIndices m) n
              Hlen Hmul Hmono Hlast m eq_refl eq_refl Hn H0)
    as (k & Hk & Hres & Hempty & Hlastline).
  exists k. split; [lia|]. split; [exact Hres|]. split.
  - intros line Hkl Hknown. unfold known_line in Hknown.
    pose proof (Hempty line Hkl ltac:(lia)) as E. split; [exact E|].
    unfold line_segments, range_segments. rewrite E.
    rewrite record_starts_nil by lia. reflexivity.
  - destruct Hlastline as [->|Hlt]; [left; reflexivity|right].
    unfold line_segments, range_segments. intros Hnil.
    apply map_eq_nil in Hnil. revert Hnil. apply record_starts_nonempty. exact Hlt.
Qed.

(** X15.  [decodedMappings] of a constructed map never returns more lines
    than the line table has generated lines, and it returns all of them as
    soon as the last generated line holds a record. *)
Theorem decodedMappings_line_count (encoded : string) :
  let m := new_EncodedSourceMapImpl encoded in
  let lines := (List.length (_lineIndices m) - 1)%nat in
  (1 <= List.length (decodedMappings m) <= lines)%nat /\
  (line_start m (lines - 1) < line_end m (lines - 1) ->
   List.length (decodedMappings m) = lines).
Proof.
  cbn zeta. set (m := new_EncodedSourceMapImpl encoded).
  destruct (map_ok_line_table m (new_map_ok encoded))
    as (n & Hn & Hlen & Hmul & Hmono & Hlast & H0).
  destruct (decodedMappings_for_lines (_mappings m) (_lineIndices m) n
              Hlen Hmul Hmono Hlast m eq_refl eq_refl Hn H0)
    as (k & Hk & Hres & Hempty & _).
  rewrite Hres, length_map, length_seq, Hlen.
  replace (S n - 1)%nat with n by lia.
  split; [lia|]. intros Hlt.
  destruct (Nat.eq_dec k n) as [E|E]; [exact E|].
  pose proof (Hempty (n - 1)%nat ltac:(lia) ltac:(lia)). lia.
Qed.

(** ** The fields of the segments *)

Lemma aget_uint32 a i : Forall uint32 a -> uint32 (aget a i).
Proof.
  intros H. unfold aget. destruct (i <? 0); [unfold uint32; lia|].
  destruct (Nat.lt_ge_cases (Z.to_nat i) (List.length a)) as [Hlt|Hge].
  - rewrite Forall_forall in H. apply H. apply nth_In. exact Hlt.
  - rewrite nth_overflow by exact Hge. unfold uint32. lia.
Qed.

Lemma segmentify_fields_ok mappings i :
  Forall uint32 mappings -> segment_fields_ok (segmentify mappings i).
Proof.
  intros H. unfold segmentify.
  pose proof (aget_uint32 mappings i H) as H0.
  pose proof (aget_uint32 mappings (i + 1) H) as H1.
  pose proof (aget_uint32 mappings (i + 2) H) as H2.
  pose proof (aget_uint32 mappings (i + 3) H) as H3.
  pose proof (aget_uint32 mappings (i + 4) H) as H4.
  unfold uint32 in *.
  destruct (Z.eqb_spec (aget mappings (i + 1)) 0) as [E1|E1]; [exact H0|].
  destruct (Z.eqb_spec (aget mappings (i + 4)) 0) as [E4|E4];
    cbn [segment_fields_ok]; unfold uint32; repeat split; lia.
Qed.

(** X16.  Every segment [decodedMappings] returns for a constructed map has
    one, four or five fields; its generated column is an unsigned 32-bit
    integer, its source index and its name index are never negative, and
    its source line and source column are at least -1. *)
Theorem decodedMappings_segment_fields (encoded : string) :
  Forall (Forall segment_fields_ok)
    (decodedMappings (new_EncodedSourceMapImpl encoded)).
Proof.
  set (m := new_EncodedSourceMapImpl encoded).
  apply Forall_forall. intros line Hline.
  apply Forall_forall. intros seg Hseg.
  destruct (decodedMappings_segments m line seg Hline Hseg) as (i & ->).
  apply segmentify_fields_ok.
  destruct (new_map_fields encoded) as (Hm & _). fold m in Hm. rewrite Hm.
  unfold decode. cbn [fst]. apply Forall_slice. apply maybeSort_Forall.
  apply decode_run_uint32.
Qed.

(** ** The array [lines] that [decode] fills *)

Lemma decode_record_with_lines encoded l s :
  decode_record encoded (with_lines_before l s) =
  with_lines_before l (decode_record encoded s).
Proof.
  unfold decode_record, with_lines_before.
  cbn [d_pos d_generatedColumn d_sourcesIndex d_sourceLine d_sourceColumn
       d_namesIndex d_decoded d_lastLineStart d_count d_lines].
  unfold add_assign.
  repeat match goal with
         | |- context [match ?e with (_, _) => _ end] => destruct e
         | |- context [if ?b then _ else _] => destruct b
         end; reflexivity.
Qed.

Lemma decode_step_with_lines encoded l s :
  decode_step encoded (with_lines_before l s) =
  with_lines_before l (decode_step encoded s).
Proof.
  unfold decode_step.
  change (d_pos (with_lines_before l s)) with (d_pos s).
  destruct (charCodeAt encoded (d_pos s)) as [c|];
    [|apply decode_record_with_lines].
  destruct c as [|c|c]; try apply decode_record_with_lines.
  do 6 (destruct c as [c|c|]; try apply decode_record_with_lines).
  - unfold with_lines_before. cbn. rewrite app_assoc. reflexivity.
  - reflexivity.
Qed.

Lemma decode_loop_with_lines encoded l : forall fuel s,
  decode_loop fuel encoded (with_lines_before l s) =
  with_lines_before l (decode_loop fuel encoded s).
Proof.
  induction fuel as [|fuel IH]; intros s; cbn [decode_loop]; [reflexivity|].
  change (d_pos (with_lines_before l s)) with (d_pos s).
  destruct (d_pos s <? slen encoded)%nat; [|reflexivity].
  rewrite decode_step_with_lines. apply IH.
Qed.

(** X17.  [decode] only appends to the array [lines] it is given: the
    entries that were there stay in front, the entries it adds are those it
    adds to an empty array, and the buffer it returns does not depend on
    what the array held. *)
Theorem decode_appends_lines (encoded : string) (lines : list Z) :
  decode encoded lines =
  (fst (decode encoded []), lines ++ snd (decode encoded [])).
Proof.
  unfold decode, decode_run. cbn [fst snd].
  replace (decode_init lines) with (with_lines_before lines (decode_init []))
    by reflexivity.
  rewrite decode_loop_with_lines.
  unfold with_lines_before.
  cbn [d_pos d_generatedColumn d_sourcesIndex d_sourceLine d_sourceColumn
       d_namesIndex d_decoded d_lastLineStart d_count d_lines].
  rewrite app_assoc. reflexivity.
Qed.

(** ** The lookup table *)

Lemma base64Index_digits i :
  (i < 64)%nat -> base64Index_at (charCodeAt base64 i) = Z.of_nat i.
Proof.
  intros Hi.
  do 64 (destruct i as [|i]; [vm_compute; reflexivity|]). lia.
Qed.

Lemma base64Index_foreign c :
  base64_digit c = false -> Z.land (base64Index_at (Some c)) 63 = 0.
Proof.
  intros H. unfold base64Index_at.
  destruct (Z.ltb_spec c 128) as [Hlt|Hge]; [|reflexivity].
  destruct (Z.ltb_spec c 0) as [Hneg|Hpos].
  - rewrite aget_neg by lia. reflexivity.
  - assert (Hall : forallb (fun c => base64_digit c ||
                      (Z.land (aget base64Index c) 63 =? 0))
                     (map Z.of_nat (seq 0 128)) = true)
      by (vm_compute; reflexivity).
    rewrite forallb_forall in Hall.
    specialize (Hall c). rewrite H in Hall. cbn [orb] in Hall.
    apply Z.eqb_eq. apply Hall.
    apply in_map_iff. exists (Z.to_nat c). split; [lia|].
    apply in_seq. lia.
Qed.

(** X18.  The table [base64Index] inverts [base64] on its 64 digits, and
    tells nothing else apart: a code unit that is not one of the 64 digits
    (the padding [=] included) has a table entry with the six low bits
    clear, so the decoder reads it as the digit 0 without continuation. *)
Theorem base64Index_inverts_base64 :
  (forall i, (i < 64)%nat ->
     base64Index_at (charCodeAt base64 i) = Z.of_nat i /\
     (exists c, charCodeAt base64 i = Some c /\ base64_digit c = true)) /\
  (forall c, base64_digit c = false ->
     Z.land (base64Index_at (Some c)) 31 = 0 /\
     Z.land (base64Index_at (Some c)) 32 = 0).
Proof.
  split.
  - intros i Hi. split; [apply base64Index_digits; exact Hi|].
    clear - Hi.
    do 64 (destruct i as [|i];
           [eexists; split; [vm_compute; reflexivity|vm_compute; reflexivity]|]).
    lia.
  - intros c H. pose proof (base64Index_foreign c H) as E.
    split.
    + change 31 with (Z.land 63 31). rewrite Z.land_assoc, E. reflexivity.
    + change 32 with (Z.land 63 32). rewrite Z.land_assoc, E. reflexivity.
Qed.

(** ** Characters outside the alphabet *)

(** X19.  [decode] rejects nothing.  A character that is not one of the 64
    digits, where a value is expected, is read like the digit [A]: the
    value is 0 and exactly one character is consumed. *)
Theorem decodeInteger_foreign_character (encoded : string) (pos : nat) (c : Z) :
  charCodeAt encoded pos = Some c -> base64_digit c = false ->
  decodeInteger_value encoded pos = (0, S pos).
Proof.
  intros Hc Hf.
  pose proof (base64Index_foreign c Hf) as E.
  assert (E31 : Z.land (base64Index_at (Some c)) 31 = 0).
  { change 31 with (Z.land 63 31). rewrite Z.land_assoc, E. reflexivity. }
  assert (E32 : Z.land (base64Index_at (Some c)) 32 = 0).
  { change 32 with (Z.land 63 32). rewrite Z.land_assoc, E. reflexivity. }
  unfold decodeInteger_value.
  assert (Hl : decodeInteger_loop (slen encoded - pos) encoded pos 0 0 = (0, S pos)).
  { destruct (slen encoded - pos)%nat; cbn [decodeInteger_loop];
      rewrite Hc, E31, E32; reflexivity. }
  rewrite Hl. reflexivity.
Qed.

Lemma decodeInteger_foreign_character_witness :
  decodeInteger_value "A!A" 1 = (0, 2%nat).
Proof.
  apply (decodeInteger_foreign_character "A!A" 1 33); reflexivity.
Defined.

(** ** Separators in front *)

Lemma charCodeAt_String a encoded pos :
  charCodeAt (String a encoded) (S pos) = charCodeAt encoded pos.
Proof. reflexivity. Qed.

Lemma decodeInteger_loop_String a encoded : forall fuel pos value shift,
  decodeInteger_loop fuel (String a encoded) (S pos) value shift =
  (fst (decodeInteger_loop fuel encoded pos value shift),
   S (snd (decodeInteger_loop fuel encoded pos value shift))).
Proof.
  induction fuel as [|fuel IH]; intros pos value shift;
    cbn [decodeInteger_loop]; rewrite charCodeAt_String;
    destruct (Z.land (base64Index_at (charCodeAt encoded pos)) 32 =? 0);
    try reflexivity.
  apply IH.
Qed.

Lemma decodeInteger_value_String a encoded pos :
  decodeInteger_value (String a encoded) (S pos) =
  (fst (decodeInteger_value encoded pos), S (snd (decodeInteger_value encoded pos))).
Proof.
  unfold decodeInteger_value.
  change (slen (String a encoded) - S pos)%nat with (slen encoded - pos)%nat.
  rewrite decodeInteger_loop_String.
  destruct (decodeInteger_loop (slen encoded - pos) encoded pos 0 0) as [v p].
  reflexivity.
Qed.

Lemma hasMoreMappings_String a encoded pos :
  hasMoreMappings (String a encoded) (S pos) = hasMoreMappings encoded pos.
Proof. reflexivity. Qed.

Lemma decode_record_String a encoded s :
  decode_record (String a encoded) (shift_pos s) =
  shift_pos (decode_record encoded s).
Proof.
  unfold decode_record, shift_pos, add_assign.
  cbn [d_pos d_generatedColumn d_sourcesIndex d_sourceLine d_sourceColumn
       d_namesIndex d_decoded d_lastLineStart d_count d_lines].
  repeat (rewrite decodeInteger_eq; cbn beta iota zeta;
          rewrite ?decodeInteger_value_String; cbn [fst snd];
          rewrite ?hasMoreMappings_String).
  repeat match goal with
         | |- context [if ?b then _ else _] => destruct b
         end; try reflexivity.
Qed.

Lemma decode_step_String a encoded s :
  decode_step (String a encoded) (shift_pos s) =
  shift_pos (decode_step encoded s).
Proof.
  unfold decode_step.
  change (d_pos (shift_pos s)) with (S (d_pos s)).
  rewrite charCodeAt_String.
  destruct (charCodeAt encoded (d_pos s)) as [c|];
    [|apply decode_record_String].
  destruct c as [|c|c]; try apply decode_record_String.
  do 6 (destruct c as [c|c|]; try apply decode_record_String); reflexivity.
Qed.

Lemma decode_loop_String a encoded : forall fuel s,
  decode_loop fuel (String a encoded) (shift_pos s) =
  shift_pos (decode_loop fuel encoded s).
Proof.
  induction fuel as [|fuel IH]; intros s; cbn [decode_loop]; [reflexivity|].
  change (d_pos (shift_pos s) <? slen (String a encoded))%nat
    with (d_pos s <? slen encoded)%nat.
  destruct (d_pos s <? slen encoded)%nat; [|reflexivity].
  rewrite decode_step_String. apply IH.
Qed.

(** X20.  Separators in front of a string.  A leading [,] changes nothing;
    a leading [;] puts one empty generated line in front and changes nothing
    else: the buffer is the same, and every entry of the line table that
    follows is the same. *)
Theorem decode_leading_separator (encoded : string) :
  decode (String "," encoded) [] = decode encoded [] /\
  decode (String ";" encoded) [] =
    (fst (decode encoded []), 0 :: snd (decode encoded [])).
Proof.
  split.
  - unfold decode, decode_run.
    change (slen (String "," encoded)) with (S (slen encoded)).
    cbn [decode_loop].
    change (decode_step (String "," encoded) (decode_init []))
      with (shift_pos (decode_init [])).
    change (d_pos (decode_init []) <? S (slen encoded))%nat with true.
    cbn iota. rewrite decode_loop_String. reflexivity.
  - transitivity (decode encoded [0]).
    2:{ unfold decode, decode_run.
        replace (decode_init [0]) with (with_lines_before [0] (decode_init []))
          by reflexivity.
        rewrite decode_loop_with_lines. reflexivity. }
    unfold decode, decode_run.
    change (slen (String ";" encoded)) with (S (slen encoded)).
    cbn [decode_loop].
    change (d_pos (decode_init []) <? S (slen encoded))%nat with true.
    cbn iota.
    assert (Hstep : decode_step (String ";" encoded) (decode_init []) =
                    shift_pos (decode_init [0])).
    { unfold decode_step. cbn [d_pos decode_init charCodeAt String.get].
      reflexivity. }
    rewrite Hstep, decode_loop_String. reflexivity.
Qed.
